(** * time-wheel: the timer service of [timer/timer.go]

    A shallow embedding of the [timer] package's facade ([SystemTimer]) and of
    the collaborators it drives: task entries, buckets ([TaskList]), the
    hierarchical [TimingWheel] and the delay queue.

    [SystemTimer] and its methods are embedded from [timer/timer.go].  [Task],
    [TaskEntry], [TaskList], [TimingWheel] and [queue.DelayQueue] are declared
    in other files; they are modelled from the design document, and every
    such definition says so in its doc comment.

    Go pointers are modelled by references into an explicit memory [Mem]:
    a bucket is shared between its wheel slot and the delay queue, an entry is
    shared between its bucket, the caller that may cancel it and the goroutine
    that runs it.  Goroutines started with [go] are put in a pool and run by a
    separate scheduler step, so that "dispatched" and "invoked" are distinct
    observable facts. *)

From stdpp Require Import base option list gmap.
From Stdlib Require Import ZArith Lia.

Open Scope Z_scope.

(** ** Machine integers and the clock source *)

(** [time.Duration] and [int64] are 64-bit signed integers: arithmetic wraps. *)
Definition wrap64 (z : Z) : Z := (z + 2 ^ 63) mod 2 ^ 64 - 2 ^ 63.

(** An instant of the wall clock ([time.Time]), as nanoseconds since the epoch. *)
Definition Time := Z.

(** [Time.Nanosecond()]: the nanosecond offset within the second, in
    [0, 999999999]. *)
Definition Nanosecond (now : Time) : Z := now mod 1000000000.

(** ** Tasks, entries and buckets *)

Definition EntryRef := nat.
Definition ListRef := nat.

(** Modelled from the spec: [Task] (absent file) is the immutable pair of a
    delay and a zero-argument callback; the callback is identified by a
    number, and running it is recorded in [invoked]. *)
Record Task := mkTask {
  delayMs : Z;
  action : nat
}.

(** Modelled from the spec: [TaskEntry] (absent file) owns a task, an absolute
    expiration, the cancelled flag and the back-reference to its bucket. *)
Record TaskEntry := mkTaskEntry {
  task : Task;
  expirationMs : Z;
  cancelledFlag : bool;
  list_ : option ListRef
}.

(** Modelled from the spec: a bucket [TaskList] (absent file) holds its armed
    expiration and its entries in list order. *)
Record TaskList := mkTaskList {
  expiration : Z;
  entries : list EntryRef
}.

(** Modelled from the spec: the sentinel of an unarmed bucket. *)
Definition unarmed : Z := -1.

Definition emptyTaskList : TaskList :=
  {| expiration := unarmed; entries := [] |}.

(** What a reference that names no entry reads as. *)
Definition noEntry : TaskEntry :=
  {| task := {| delayMs := 0; action := 0%nat |}; expirationMs := 0;
     cancelledFlag := false; list_ := None |}.

(** Modelled from the spec: what the delay queue (absent package [queue])
    stores.  [Pop] returns an interface value that [AdvanceClock] has to
    assert to be a bucket, so an element is a bucket or some other delayed
    object. *)
Inductive Delayed :=
| DTaskList (l : ListRef)
| DOther (delay : Z).

(** The body of a goroutine started by the timer: [e.task.run()]. *)
Inductive Goroutine :=
| GoTaskRun (e : EntryRef).

(** ** Memory *)

Record Mem := mkMem {
  taskLists : gmap nat TaskList;      (* the buckets, by reference *)
  taskEntries : gmap nat TaskEntry;   (* the entries, by reference *)
  delayQueue : list (Z * Delayed);    (* the one DelayQueue, keyed, ascending *)
  goroutines : list Goroutine;        (* started with go, not yet run *)
  invoked : list nat;                 (* actions invoked so far, oldest first *)
  polled : list (option Delayed);     (* what each returned Pop yielded *)
  clock : Z                           (* the reading of the queue's clock *)
}.

Definition getList (m : Mem) (l : ListRef) : TaskList :=
  default emptyTaskList (taskLists m !! l).

Definition getEntry (m : Mem) (e : EntryRef) : TaskEntry :=
  default noEntry (taskEntries m !! e).

Definition setLists (f : gmap nat TaskList -> gmap nat TaskList) (m : Mem) : Mem :=
  mkMem (f (taskLists m)) (taskEntries m) (delayQueue m) (goroutines m)
        (invoked m) (polled m) (clock m).

Definition setEntries (f : gmap nat TaskEntry -> gmap nat TaskEntry) (m : Mem) : Mem :=
  mkMem (taskLists m) (f (taskEntries m)) (delayQueue m) (goroutines m)
        (invoked m) (polled m) (clock m).

Definition setDelayQueue (q : list (Z * Delayed)) (m : Mem) : Mem :=
  mkMem (taskLists m) (taskEntries m) q (goroutines m)
        (invoked m) (polled m) (clock m).

Definition setGoroutines (g : list Goroutine) (m : Mem) : Mem :=
  mkMem (taskLists m) (taskEntries m) (delayQueue m) g
        (invoked m) (polled m) (clock m).

Definition setInvoked (i : list nat) (m : Mem) : Mem :=
  mkMem (taskLists m) (taskEntries m) (delayQueue m) (goroutines m)
        i (polled m) (clock m).

(** A returned [Pop]: the queue after it, the clock it returned at, the log. *)
Definition afterPop (q : list (Z * Delayed)) (c : Z) (r : option Delayed) (m : Mem) : Mem :=
  mkMem (taskLists m) (taskEntries m) q (goroutines m)
        (invoked m) (polled m ++ [r]) c.

Definition emptyMem : Mem :=
  mkMem ∅ ∅ [] [] [] [] 0.

(** ** TaskEntry and TaskList operations *)

(** Modelled from the spec: [NewTaskEntry(task, expiration)] makes a fresh
    entry, not cancelled, in no bucket. *)
Definition NewTaskEntry (tk : Task) (exp : Z) (m : Mem) : EntryRef * Mem :=
  let e := fresh (dom (taskEntries m)) in
  (e, setEntries <[e := mkTaskEntry tk exp false None]> m).

(** Modelled from the spec: [cancelled()] reads the flag. *)
Definition cancelled (m : Mem) (e : EntryRef) : bool :=
  cancelledFlag (getEntry m e).

(** Modelled from the spec: [cancel()] sets the flag and leaves the entry
    linked in its bucket (lazy deletion); a second call changes nothing. *)
Definition cancel (e : EntryRef) (m : Mem) : Mem :=
  setEntries (alter (fun x => mkTaskEntry (task x) (expirationMs x) true (list_ x)) e) m.

(** Modelled from the spec: [task.run()] invokes the task's callback. *)
Definition run (tk : Task) (m : Mem) : Mem :=
  setInvoked (invoked m ++ [action tk]) m.

(** The [go] statement: the goroutine is started, its body is not run by the
    caller. *)
Definition go (g : Goroutine) (m : Mem) : Mem :=
  setGoroutines (goroutines m ++ [g]) m.

Definition setList (e : EntryRef) (l : option ListRef) (m : Mem) : Mem :=
  setEntries (alter (fun x => mkTaskEntry (task x) (expirationMs x) (cancelledFlag x) l) e) m.

(** Modelled from the spec: [TaskList.add] appends at the tail and sets the
    entry's back-reference. *)
Definition TaskList_add (l : ListRef) (e : EntryRef) (m : Mem) : Mem :=
  let tl := getList m l in
  setList e (Some l)
    (setLists <[l := mkTaskList (expiration tl) (entries tl ++ [e])]> m).

(** Modelled from the spec: [setExpiration] replaces the armed expiration and
    reports whether it changed. *)
Definition setExpiration (l : ListRef) (t : Z) (m : Mem) : bool * Mem :=
  let tl := getList m l in
  (negb (expiration tl =? t),
   setLists <[l := mkTaskList t (entries tl)]> m).

(** Modelled from the spec: [GetDelay()] of a bucket is its armed
    expiration, the time [AdvanceClock] advances the wheel to. *)
Definition GetDelay (m : Mem) (l : ListRef) : Z := expiration (getList m l).

(** Modelled from the spec: [flush] detaches every entry (the bucket becomes
    empty and unarmed), then calls the visitor once per detached entry, in
    list order. *)
Definition flush (l : ListRef) (visit : EntryRef -> Mem -> Mem) (m : Mem) : Mem :=
  let es := entries (getList m l) in
  let m1 := setLists <[l := emptyTaskList]> m in
  let m2 := foldl (fun acc e => setList e None acc) m1 es in
  foldl (fun acc e => visit e acc) m2 es.

(** ** The delay queue *)

(** A context, as far as [Pop] observes it: the clock reading at which its
    [Done] channel fires, if it ever does. *)
Record Context := mkContext {
  doneAt : option Z
}.

(** Modelled from the spec: the queue is ordered by key, earliest first;
    equal keys keep their order of arrival. *)
Fixpoint insertKeyed (k : Z) (x : Delayed) (q : list (Z * Delayed)) : list (Z * Delayed) :=
  match q with
  | [] => [(k, x)]
  | (k', x') :: q' =>
      if k <? k' then (k, x) :: q else (k', x') :: insertKeyed k x q'
  end.

(** Modelled from the spec: [offer] inserts the bucket keyed by its current
    armed expiration. *)
Definition offer (l : ListRef) (m : Mem) : Mem :=
  setDelayQueue (insertKeyed (GetDelay m l) (DTaskList l) (delayQueue m)) m.

(** Modelled from the spec: [Pop(ctx)] blocks until the earliest element's
    expiration has elapsed, then removes and returns it, or until the context
    fires, then returns nil.  [None] is a wait that never ends (empty queue,
    context that never fires). *)
Definition Pop (ctx : Context) (m : Mem) : option (option Delayed * Mem) :=
  match delayQueue m with
  | (k, x) :: q =>
      if k <=? clock m then Some (Some x, afterPop q (clock m) (Some x) m)
      else
        match doneAt ctx with
        | Some d =>
            if k <=? d then Some (Some x, afterPop q k (Some x) m)
            else Some (None, afterPop (delayQueue m) (Z.max (clock m) d) None m)
        | None => Some (Some x, afterPop q k (Some x) m)
        end
  | [] =>
      match doneAt ctx with
      | Some d => Some (None, afterPop [] (Z.max (clock m) d) None m)
      | None => None
      end
  end.

(** Follows the spec's words, for comparison with the code: the non-blocking
    poll, which yields what is ready now, or nil, and never waits. *)
Definition PopNow (m : Mem) : option Delayed * Mem :=
  match delayQueue m with
  | (k, x) :: q =>
      if k <=? clock m then (Some x, afterPop q (clock m) (Some x) m)
      else (None, afterPop (delayQueue m) (clock m) None m)
  | [] => (None, afterPop [] (clock m) None m)
  end.

(** ** The timing wheel *)

(** Modelled from the spec: one level of the wheel ([TimingWheel], absent
    file): tick, slot count, window, current time floored to a tick, the
    fixed array of buckets and the lazily created overflow wheel. *)
#[warnings="-register-all"]
Inductive TimingWheel := mkTimingWheel {
  w_tickMs : Z;
  w_wheelSize : Z;
  w_interval : Z;
  w_currentTime : Z;
  w_buckets : list ListRef;
  w_overflowWheel : option TimingWheel
}.

(** Modelled from the spec: the buckets of a wheel are allocated once, empty
    and unarmed. *)
Fixpoint newTaskLists (n : nat) (m : Mem) : list ListRef * Mem :=
  match n with
  | O => ([], m)
  | S n' =>
      let l := fresh (dom (taskLists m)) in
      let '(ls, m') := newTaskLists n' (setLists <[l := emptyTaskList]> m) in
      (l :: ls, m')
  end.

(** Modelled from the spec: [NewTimingWheel(tickMs, wheelSize, startMs, ...)]
    allocates the buckets once and floors the start time to a tick. *)
Definition NewTimingWheel (tick size start : Z) (m : Mem) : TimingWheel * Mem :=
  let '(bs, m') := newTaskLists (Z.to_nat size) m in
  (mkTimingWheel tick size (tick * size) (start - start mod tick) bs None, m').

(** The wheel [w] with [o] as its overflow wheel. *)
Definition withOverflow (w : TimingWheel) (o : TimingWheel) : TimingWheel :=
  mkTimingWheel (w_tickMs w) (w_wheelSize w) (w_interval w) (w_currentTime w)
                (w_buckets w) (Some o).

(** How many levels a chain of wheels can have before its window leaves the
    64-bit range (the window at least doubles per level). *)
Definition maxLevels : nat := 64.

(** Modelled from the spec: [add], section 4.4 steps 1 to 4.  The result is
    whether the entry was accepted; [None] stands for a call that does not
    return normally (a slot outside the bucket array of a malformed wheel, or
    overflow wheels built without end because the window does not grow). *)
Fixpoint add_levels (fuel : nat) (w : TimingWheel) (e : EntryRef) (m : Mem)
  : option (bool * TimingWheel * Mem) :=
  let exp := expirationMs (getEntry m e) in
  if cancelled m e then Some (false, w, m)
  else if exp <? w_currentTime w + w_tickMs w then Some (false, w, m)
  else if exp <? w_currentTime w + w_interval w then
    let virtualId := exp / w_tickMs w in
    match w_buckets w !! Z.to_nat (virtualId mod w_wheelSize w) with
    | Some b =>
        let m1 := TaskList_add b e m in
        let '(changed, m2) := setExpiration b (virtualId * w_tickMs w) m1 in
        Some (true, w, if changed then offer b m2 else m2)
    | None => None
    end
  else
    match fuel with
    | O => None
    | S fuel' =>
        let '(o, m1) :=
          match w_overflowWheel w with
          | Some o => (o, m)
          | None => NewTimingWheel (w_interval w) (w_wheelSize w) (w_currentTime w) m
          end in
        match add_levels fuel' o e m1 with
        | Some (ok, o', m2) => Some (ok, withOverflow w o', m2)
        | None => None
        end
    end.

(** Modelled from the spec: [add], with room for every level a 64-bit
    expiration can need ([add_returns]). *)
Definition add (w : TimingWheel) (e : EntryRef) (m : Mem)
  : option (bool * TimingWheel * Mem) :=
  add_levels maxLevels w e m.

(** Modelled from the spec: [advanceClock(t)] moves the current time to the
    tick boundary at or before [t] when [t] is at least one tick ahead, and
    forwards the advance to the overflow wheel if there is one. *)
Fixpoint advanceClock (w : TimingWheel) (t : Z) : TimingWheel :=
  if w_currentTime w + w_tickMs w <=? t then
    mkTimingWheel (w_tickMs w) (w_wheelSize w) (w_interval w)
      (t - t mod w_tickMs w) (w_buckets w)
      match w_overflowWheel w with
      | Some o => Some (advanceClock o t)
      | None => None
      end
  else w.

(** ** The timer service: [timer/timer.go] *)

Record SystemTimer := mkSystemTimer {
  tickMs : Z;
  wheelSize : Z;
  startMs : Z;
  (* delayQueue: a pointer to the one queue, [delayQueue] of Mem;
     mu: the lock orders concurrent calls, which a sequential history does
     by itself *)
  taskCounter : Z;
  timingWheel : TimingWheel
}.

Definition setTimingWheel (w : TimingWheel) (t : SystemTimer) : SystemTimer :=
  mkSystemTimer (tickMs t) (wheelSize t) (startMs t) (taskCounter t) w.

(** How a call of the timer ends. *)
Inductive PanicValue :=
| DidNotFoundTaskList      (* panic("did not found TaskList") *)
| InterfaceConversion      (* a failed unchecked type assertion *)
| WheelAbort.              (* the wheel's add did not return normally *)

Inductive Outcome (A : Type) :=
| Returned (a : A) (t : SystemTimer) (m : Mem)
| Panicked (p : PanicValue) (t : SystemTimer) (m : Mem)
| Blocked (t : SystemTimer) (m : Mem).   (* waits in Pop for ever *)

Arguments Returned {A} a t m.
Arguments Panicked {A} p t m.
Arguments Blocked {A} t m.

Definition timerOf {A} (o : Outcome A) : SystemTimer :=
  match o with
  | Returned _ t _ | Panicked _ t _ | Blocked t _ => t
  end.

Definition memOf {A} (o : Outcome A) : Mem :=
  match o with
  | Returned _ _ m | Panicked _ _ m | Blocked _ m => m
  end.

Definition panics {A} (o : Outcome A) : bool :=
  match o with
  | Panicked _ _ _ => true
  | _ => false
  end.

(** [NewSystemTimer(tickMs, wheelSize)], called at instant [now]. *)
Definition NewSystemTimer (tick size : Z) (now : Time) : SystemTimer * Mem :=
  let start := Nanosecond now in
  let '(w, m) := NewTimingWheel tick size start emptyMem in
  (mkSystemTimer tick size start 0 w, m).

(** [addTimerTaskEntry(taskEntry)]. *)
Definition addTimerTaskEntry (taskEntry : EntryRef) (t : SystemTimer) (m : Mem)
  : Outcome unit :=
  match add (timingWheel t) taskEntry m with     (* t.timingWheel.add(taskEntry) *)
  | Some (true, w, m1) => Returned tt (setTimingWheel w t) m1
  | Some (false, w, m1) =>
      (* Already expired or cancelled *)
      if negb (cancelled m1 taskEntry)             (* !taskEntry.cancelled() *)
      then Returned tt (setTimingWheel w t)
             (go (GoTaskRun taskEntry) m1)         (* go taskEntry.task.run() *)
      else Returned tt (setTimingWheel w t) m1
  | None => Panicked WheelAbort t m
  end.

(** [Add(task)], called at instant [now]: the entry's expiration is
    [task.delayMs + time.Duration(time.Now().Nanosecond())]. *)
Definition Add (tk : Task) (now : Time) (t : SystemTimer) (m : Mem) : Outcome unit :=
  let '(e, m1) := NewTaskEntry tk (wrap64 (delayMs tk + Nanosecond now)) m in
  addTimerTaskEntry e t m1.

(** The visitor [AdvanceClock] hands to [flush]:
    [func(e *TaskEntry) { go func() { e.task.run() }() }]. *)
Definition flushVisitor (e : EntryRef) (m : Mem) : Mem := go (GoTaskRun e) m.

(** The body of [for v != nil] in [AdvanceClock], once per unit of fuel. *)
Fixpoint AdvanceClock_loop (fuel : nat) (ctx : Context) (v : ListRef)
    (t : SystemTimer) (m : Mem) : option (Outcome bool) :=
  (* t.timingWheel.advanceClock(v.GetDelay()) *)
  let t1 := setTimingWheel (advanceClock (timingWheel t) (GetDelay m v)) t in
  (* v.flush(func(e *TaskEntry) { go func() { e.task.run() }() }) *)
  let m1 := flush v flushVisitor m in
  (* x := t.delayQueue.Pop(ctx) *)
  match Pop ctx m1 with
  | None => Some (Blocked t1 m1)
  | Some (None, m2) => Some (Returned true t1 m2)      (* v = nil; return true *)
  | Some (Some (DTaskList v'), m2) =>                   (* v = x.( *TaskList) *)
      match fuel with
      | O => None
      | S fuel' => AdvanceClock_loop fuel' ctx v' t1 m2
      end
  | Some (Some (DOther _), m2) => Some (Panicked InterfaceConversion t1 m2)
  end.

(** [AdvanceClock(ctx)].  The loop dequeues one element per round and puts
    none back, so the length of the queue bounds its rounds
    ([AdvanceClock_loop_total]); the last branch is not reached. *)
Definition AdvanceClock (ctx : Context) (t : SystemTimer) (m : Mem) : Outcome bool :=
  match Pop ctx m with                     (* bucket := t.delayQueue.Pop(ctx) *)
  | None => Blocked t m
  | Some (None, m1) => Returned false t m1                   (* return false *)
  | Some (Some (DTaskList v), m1) =>
      match AdvanceClock_loop (length (delayQueue m1)) ctx v t m1 with
      | Some o => o
      | None => Blocked t m1
      end
  | Some (Some (DOther _), m1) => Panicked DidNotFoundTaskList t m1
  end.

(** [Size()] returns [t.taskCounter]. *)
Definition Size (t : SystemTimer) : Z := taskCounter t.

(** [Shutdown()]: the body is empty. *)
Definition Shutdown (t : SystemTimer) (m : Mem) : SystemTimer * Mem := (t, m).

(** ** Scheduling and sequential histories *)

(** The scheduler runs the [i]-th started goroutine: [e.task.run()]. *)
Definition runGoroutine (i : nat) (m : Mem) : Mem :=
  match goroutines m !! i with
  | Some (GoTaskRun e) =>
      run (task (getEntry m e))
          (setGoroutines (take i (goroutines m) ++ drop (S i) (goroutines m)) m)
  | None => m
  end.

(** Every started goroutine gets to run, oldest first. *)
Definition runAll (m : Mem) : Mem :=
  foldl (fun acc _ => runGoroutine 0 acc) m (goroutines m).

(** One step of a sequential history of the timer's clients.  [t.mu] is not
    part of the memory: a history goes on from the state a call left, also
    when that call panicked or is still waiting in [Pop], where a client of
    the real timer would wait for the lock or be gone.  The histories of the
    real timer are therefore among the ones of [steps]. *)
Inductive Op :=
| OpAdd (tk : Task) (now : Time)
| OpCancel (e : EntryRef)
| OpAdvanceClock (ctx : Context)
| OpShutdown
| OpRun (i : nat).

Definition step (op : Op) (s : SystemTimer * Mem) : SystemTimer * Mem :=
  match op with
  | OpAdd tk now => let o := Add tk now (fst s) (snd s) in (timerOf o, memOf o)
  | OpCancel e => (fst s, cancel e (snd s))
  | OpAdvanceClock ctx =>
      let o := AdvanceClock ctx (fst s) (snd s) in (timerOf o, memOf o)
  | OpShutdown => Shutdown (fst s) (snd s)
  | OpRun i => (fst s, runGoroutine i (snd s))
  end.

Definition steps (ops : list Op) (s : SystemTimer * Mem) : SystemTimer * Mem :=
  foldl (fun acc op => step op acc) s ops.

(** ** The course of [AdvanceClock] once a bucket has been dequeued *)

(** One bucket [v] is processed (the wheel is advanced to its expiration, the
    bucket is flushed with the timer's visitor), then the queue is asked again
    with the same [Pop ctx]: nil ends the call with [true], a bucket is
    processed in turn, anything else fails the type assertion, and a wait
    that never ends blocks the call. *)
Inductive Drains (ctx : Context)
  : ListRef -> SystemTimer -> Mem -> Outcome bool -> Prop :=
| Drains_nil v t m m2 :
    Pop ctx (flush v flushVisitor m) = Some (None, m2) ->
    Drains ctx v t m
      (Returned true
         (setTimingWheel (advanceClock (timingWheel t) (GetDelay m v)) t) m2)
| Drains_bucket v t m v' m2 o :
    Pop ctx (flush v flushVisitor m) = Some (Some (DTaskList v'), m2) ->
    Drains ctx v'
      (setTimingWheel (advanceClock (timingWheel t) (GetDelay m v)) t) m2 o ->
    Drains ctx v t m o
| Drains_foreign v t m d m2 :
    Pop ctx (flush v flushVisitor m) = Some (Some (DOther d), m2) ->
    Drains ctx v t m
      (Panicked InterfaceConversion
         (setTimingWheel (advanceClock (timingWheel t) (GetDelay m v)) t) m2)
| Drains_blocked v t m :
    Pop ctx (flush v flushVisitor m) = None ->
    Drains ctx v t m
      (Blocked
         (setTimingWheel (advanceClock (timingWheel t) (GetDelay m v)) t)
         (flush v flushVisitor m)).

(** The queue of memory [m], asked again and again with [Pop ctx] alone,
    yields an object that is not a bucket, at once or after some buckets. *)
Inductive PopsForeign (ctx : Context) : Mem -> Prop :=
| PopsForeign_now m d m1 :
    Pop ctx m = Some (Some (DOther d), m1) -> PopsForeign ctx m
| PopsForeign_later m v m1 :
    Pop ctx m = Some (Some (DTaskList v), m1) ->
    PopsForeign ctx m1 -> PopsForeign ctx m.

(** What a returned [Pop] leaves alone in memory, and what it does to the
    queue, the poll log and the clock. *)
Record PopFrame (m m' : Mem) (r : option Delayed) : Prop := {
  pop_lists : taskLists m' = taskLists m;
  pop_entries : taskEntries m' = taskEntries m;
  pop_goroutines : goroutines m' = goroutines m;
  pop_invoked : invoked m' = invoked m;
  pop_polled : polled m' = polled m ++ [r];
  pop_clock : clock m <= clock m';
  pop_queue :
    match r with
    | Some x => exists k, delayQueue m = (k, x) :: delayQueue m'
    | None => delayQueue m' = delayQueue m
    end
}.

(** What the wheel's [add] leaves alone in memory: the goroutines, the
    invocations, the poll log, the clock, and of every entry its task, its
    expiration and its cancelled flag. *)
Record AddFrame (m m' : Mem) : Prop := {
  af_goroutines : goroutines m' = goroutines m;
  af_invoked : invoked m' = invoked m;
  af_polled : polled m' = polled m;
  af_clock : clock m' = clock m;
  af_task : forall e, task (getEntry m' e) = task (getEntry m e);
  af_expiration : forall e, expirationMs (getEntry m' e) = expirationMs (getEntry m e);
  af_cancelled : forall e, cancelled m' e = cancelled m e
}.

(** A chain of wheels as [NewSystemTimer] and [add] build them from a positive
    tick and at least two slots: each window is tick times slots, each
    overflow wheel ticks at the window below it, every level has its bucket
    array, and no clock is negative. *)
Fixpoint WheelOk (w : TimingWheel) : Prop :=
  0 < w_tickMs w /\ 2 <= w_wheelSize w /\
  w_interval w = w_tickMs w * w_wheelSize w /\
  0 <= w_currentTime w /\
  length (w_buckets w) = Z.to_nat (w_wheelSize w) /\
  match w_overflowWheel w with
  | Some o =>
      w_tickMs o = w_interval w /\ w_wheelSize o = w_wheelSize w /\ WheelOk o
  | None => True
  end.

(** ** Concrete timers *)

(** One millisecond, in the unit of [time.Duration]. *)
Definition ms : Z := 1000000.

(** A timer of 20 slots of 1 ms, created at the start of a second. *)
Definition timer0 : SystemTimer * Mem := NewSystemTimer ms 20 0.

Definition until (d : Z) : Context := mkContext (Some d).

(** Two entries in two buckets of the base wheel, due at 5 ms and at 15 ms. *)
Definition twoBuckets : SystemTimer * Mem :=
  steps [OpAdd (mkTask (5 * ms) 7) 0; OpAdd (mkTask (15 * ms) 9) 0] timer0.

(** A task of delay zero, wrapped at the instant the timer was created. *)
Definition zeroDelay : EntryRef * Mem :=
  NewTaskEntry (mkTask 0 7) (wrap64 (0 + Nanosecond 0)) (snd timer0).

(** One entry due at 25 ms: beyond the 20 ms window, so it sits in the
    overflow wheel's bucket that is armed for 20 ms. *)
Definition overflowEntry : SystemTimer * Mem :=
  steps [OpAdd (mkTask (25 * ms) 8) 0] timer0.

(** One entry due at 5 ms, cancelled before its bucket is due. *)
Definition cancelledEntry : SystemTimer * Mem :=
  steps [OpAdd (mkTask (5 * ms) 7) 0; OpCancel 0%nat] timer0.

(** One entry due at 5 ms, pending when [Shutdown] is called. *)
Definition shutDown : SystemTimer * Mem :=
  steps [OpAdd (mkTask (5 * ms) 7) 0; OpShutdown] timer0.

(** Two submissions of the same delay 0.2 s apart, across a second's end. *)
Definition acrossSecond : SystemTimer * Mem :=
  steps [OpAdd (mkTask (5 * ms) 1) 900000000;
         OpAdd (mkTask (5 * ms) 2) 1100000000] timer0.

(** ** Invariants of the timer over sequential histories *)

(** The delay queue holds buckets only: what the wheel offers. *)
Definition isBucket (p : Z * Delayed) : Prop :=
  match snd p with DTaskList _ => True | DOther _ => False end.

Definition onlyBuckets (m : Mem) : Prop := Forall isBucket (delayQueue m).

(** Every element of the delay queue is due by [d]. *)
Definition dueBy (d : Z) (m : Mem) : Prop :=
  forall p, p ∈ delayQueue m -> fst p <= d.

(** Two wheels with the same tick, slot count, window and bucket array. *)
Record SameShape (w w' : TimingWheel) : Prop := {
  ss_tick : w_tickMs w' = w_tickMs w;
  ss_size : w_wheelSize w' = w_wheelSize w;
  ss_interval : w_interval w' = w_interval w;
  ss_buckets : w_buckets w' = w_buckets w
}.

(** Two timers with the same configuration. *)
Record SameConfig (t t' : SystemTimer) : Prop := {
  sc_tickMs : tickMs t' = tickMs t;
  sc_wheelSize : wheelSize t' = wheelSize t;
  sc_startMs : startMs t' = startMs t;
  sc_wheel : SameShape (timingWheel t) (timingWheel t')
}.

(** A memory in which every bucket is empty and unarmed. *)
Definition AllEmpty (m : Mem) : Prop := forall l, getList m l = emptyTaskList.

(** The goroutines a step started: those the pool has beyond the ones it had
    (a scheduler step starts none). *)
Definition startedBy (s s' : SystemTimer * Mem) : list Goroutine :=
  drop (length (goroutines (snd s))) (goroutines (snd s')).

(** The goroutines started along a history, in order. *)
Fixpoint startsOf (ops : list Op) (s : SystemTimer * Mem) : list Goroutine :=
  match ops with
  | [] => []
  | op :: ops' => startedBy s (step op s) ++ startsOf ops' (step op s)
  end.

(** No entry can be started again: an entry sits in at most one bucket, at
    most once; an entry in a bucket has not been started ([log] holds the
    goroutines started so far); and whatever is in a bucket or was started is
    an allocated entry, so that a new entry is none of them. *)
Record NoRestart (m : Mem) (log : list Goroutine) : Prop := {
  nr_bucket : forall l, NoDup (entries (getList m l));
  nr_one : forall l l' e,
    e ∈ entries (getList m l) -> e ∈ entries (getList m l') -> l = l';
  nr_pending : forall l e, e ∈ entries (getList m l) -> GoTaskRun e ∉ log;
  nr_bucket_dom : forall l e,
    e ∈ entries (getList m l) -> e ∈ dom (taskEntries m);
  nr_log_dom : forall e, GoTaskRun e ∈ log -> e ∈ dom (taskEntries m);
  nr_log : NoDup log
}.

(** Every allocated entry is in a bucket or was started. *)
Definition Accounted (m : Mem) (log : list Goroutine) : Prop :=
  forall e, e ∈ dom (taskEntries m) ->
    (exists l, e ∈ entries (getList m l)) \/ GoTaskRun e ∈ log.

(** Every bucket that holds entries has an element in the delay queue, and an
    empty bucket is unarmed. *)
Record Armed (m : Mem) : Prop := {
  ar_queued : forall l, entries (getList m l) <> [] ->
                        exists k, (k, DTaskList l) ∈ delayQueue m;
  ar_unarmed : forall l, entries (getList m l) = [] ->
                         expiration (getList m l) = unarmed
}.

(** The same while bucket [v], just dequeued, awaits its flush. *)
Record ArmedBut (v : ListRef) (m : Mem) : Prop := {
  ab_queued : forall l, l <> v -> entries (getList m l) <> [] ->
                        exists k, (k, DTaskList l) ∈ delayQueue m;
  ab_unarmed : forall l, l <> v -> entries (getList m l) = [] ->
                         expiration (getList m l) = unarmed
}.

(** * Properties *)

(** ** What [Pop] touches *)

Lemma Pop_frame ctx m r m' :
  Pop ctx m = Some (r, m') -> PopFrame m m' r.
Proof.
  unfold Pop. intros H.
  destruct (delayQueue m) as [|[k x] q] eqn:Hq.
  - destruct (doneAt ctx) as [d|]; [|discriminate].
    injection H as <- <-. split; cbn; auto; try lia.
  - destruct (k <=? clock m) eqn:Hk.
    + injection H as <- <-. split; cbn; eauto; lia.
    + apply Z.leb_gt in Hk.
      destruct (doneAt ctx) as [d|].
      * destruct (k <=? d); injection H as <- <-; split; cbn; eauto; lia.
      * injection H as <- <-. split; cbn; eauto; lia.
Qed.

Lemma Pop_some_shorter ctx m x m' :
  Pop ctx m = Some (Some x, m') -> length (delayQueue m) = S (length (delayQueue m')).
Proof.
  intros H. destruct (Pop_frame _ _ _ _ H) as [_ _ _ _ _ _ [k Hk]].
  now rewrite Hk.
Qed.

(** ** What [flush] with the timer's visitor touches *)

Lemma foldl_setList_frame (es : list EntryRef) (m : Mem) :
  let m' := foldl (fun acc e => setList e None acc) m es in
  taskLists m' = taskLists m /\ delayQueue m' = delayQueue m /\
  goroutines m' = goroutines m /\ invoked m' = invoked m /\
  polled m' = polled m /\ clock m' = clock m.
Proof.
  revert m. induction es as [|e es IH]; intros m; cbn; [tauto|].
  specialize (IH (setList e None m)). cbn in IH. exact IH.
Qed.

Lemma foldl_flushVisitor_frame (es : list EntryRef) (m : Mem) :
  let m' := foldl (fun acc e => flushVisitor e acc) m es in
  taskLists m' = taskLists m /\ taskEntries m' = taskEntries m /\
  delayQueue m' = delayQueue m /\
  goroutines m' = goroutines m ++ map GoTaskRun es /\
  invoked m' = invoked m /\ polled m' = polled m /\ clock m' = clock m.
Proof.
  revert m. induction es as [|e es IH]; intros m; cbn.
  - rewrite app_nil_r. tauto.
  - specialize (IH (flushVisitor e m)). cbn in IH.
    destruct IH as (H1 & H2 & H3 & H4 & H5 & H6 & H7).
    rewrite H1, H2, H3, H4, H5, H6, H7. cbn.
    rewrite <- app_assoc. tauto.
Qed.

(** The visitor of [AdvanceClock] starts one goroutine per detached entry,
    whatever the entry's expiration or cancelled flag, and runs none. *)
Lemma flush_flushVisitor (v : ListRef) (m : Mem) :
  let m' := flush v flushVisitor m in
  delayQueue m' = delayQueue m /\
  goroutines m' = goroutines m ++ map GoTaskRun (entries (getList m v)) /\
  invoked m' = invoked m /\ polled m' = polled m /\ clock m' = clock m.
Proof.
  unfold flush. cbn zeta.
  set (es := entries (getList m v)).
  set (m1 := setLists _ m).
  destruct (foldl_setList_frame es m1) as (_ & A2 & A3 & A4 & A5 & A6).
  destruct (foldl_flushVisitor_frame es (foldl (fun acc e => setList e None acc) m1 es))
    as (_ & _ & B3 & B4 & B5 & B6 & B7).
  rewrite B3, B4, B5, B6, B7, A2, A3, A4, A5, A6. subst m1. cbn. tauto.
Qed.

(** ** The loop of [AdvanceClock] ends *)

Lemma AdvanceClock_loop_total (fuel : nat) ctx v t m :
  (length (delayQueue m) <= fuel)%nat ->
  is_Some (AdvanceClock_loop fuel ctx v t m).
Proof.
  revert v t m. induction fuel as [|fuel IH]; intros v t m Hlen; cbn.
  - destruct (flush_flushVisitor v m) as (Hq & _).
    destruct (Pop ctx (flush v flushVisitor m)) as [[[[l|d]|] m2]|] eqn:HP; eauto.
    apply Pop_some_shorter in HP. rewrite Hq in HP. lia.
  - destruct (flush_flushVisitor v m) as (Hq & _).
    destruct (Pop ctx (flush v flushVisitor m)) as [[[[l|d]|] m2]|] eqn:HP; eauto.
    apply IH. apply Pop_some_shorter in HP. rewrite Hq in HP. lia.
Qed.

(** More fuel than needed changes nothing. *)
Lemma AdvanceClock_loop_mono (fuel : nat) ctx v t m o :
  AdvanceClock_loop fuel ctx v t m = Some o ->
  forall fuel', (fuel <= fuel')%nat -> AdvanceClock_loop fuel' ctx v t m = Some o.
Proof.
  revert v t m. induction fuel as [|fuel IH]; intros v t m H fuel' Hle.
  - destruct fuel'; cbn in *; [exact H|].
    destruct (Pop ctx (flush v flushVisitor m)) as [[[[l|d]|] m2]|]; try exact H.
    discriminate.
  - destruct fuel' as [|fuel']; [lia|]. cbn in *.
    destruct (Pop ctx (flush v flushVisitor m)) as [[[[l|d]|] m2]|]; try exact H.
    apply IH; [exact H|lia].
Qed.

(** ** The loop follows [Drains] *)

Lemma AdvanceClock_loop_Drains (fuel : nat) ctx v t m o :
  AdvanceClock_loop fuel ctx v t m = Some o -> Drains ctx v t m o.
Proof.
  revert v t m. induction fuel as [|fuel IH]; intros v t m H; cbn in H.
  - destruct (Pop ctx (flush v flushVisitor m)) as [[[[l|d]|] m2]|] eqn:HP;
      simplify_eq; eauto using Drains.
  - destruct (Pop ctx (flush v flushVisitor m)) as [[[[l|d]|] m2]|] eqn:HP;
      simplify_eq; eauto using Drains.
Qed.

Lemma Drains_returns_true ctx v t m o :
  Drains ctx v t m o -> forall b t' m', o = Returned b t' m' -> b = true.
Proof.
  induction 1; intros b t' m' E; try discriminate; eauto.
  now injection E as <- _ _.
Qed.

(** The call of [AdvanceClock] on a dequeued bucket, without the fuel. *)
Lemma AdvanceClock_bucket ctx t m v m1 :
  Pop ctx m = Some (Some (DTaskList v), m1) ->
  AdvanceClock_loop (length (delayQueue m1)) ctx v t m1 = Some (AdvanceClock ctx t m).
Proof.
  intros HP. unfold AdvanceClock. rewrite HP.
  destruct (AdvanceClock_loop_total (length (delayQueue m1)) ctx v t m1) as [o Ho]; [lia|].
  now rewrite Ho.
Qed.

(** ** Draining the queue *)

(** C6 (defect of the code): the loop asks the queue again with the waiting
    [Pop ctx], and does so holding [t.mu].  With buckets due at 5 ms and
    15 ms and a context that fires at 30 ms, the first [Pop] returns at 5 ms;
    a poll that does not wait would then find nothing, yet the call waits,
    processes the second bucket at 15 ms and returns only when the context
    fires. *)
Lemma AdvanceClock_waits_again_for_later_bucket :
  exists v m1,
    Pop (until (30 * ms)) (snd twoBuckets) = Some (Some (DTaskList v), m1) /\
    clock m1 = 5 * ms /\
    fst (PopNow (flush v flushVisitor m1)) = None /\
    polled (memOf (AdvanceClock (until (30 * ms)) (fst twoBuckets) (snd twoBuckets)))
      = [Some (DTaskList 5%nat); Some (DTaskList 15%nat); None] /\
    clock (memOf (AdvanceClock (until (30 * ms)) (fst twoBuckets) (snd twoBuckets)))
      <> clock m1.
Proof.
  eexists _, _. split; [vm_compute; reflexivity|].
  repeat split; try (vm_compute; reflexivity).
  vm_compute. discriminate.
Qed.

(** On the same timer, with a context that never fires, the call does not
    return: both buckets are processed, the queue is empty, and the call
    waits in [Pop]. *)
Lemma AdvanceClock_waits_for_ever_on_the_drained_queue :
  exists t m,
    AdvanceClock (mkContext None) (fst twoBuckets) (snd twoBuckets) = Blocked t m /\
    polled m = [Some (DTaskList 5%nat); Some (DTaskList 15%nat)] /\
    goroutines m = [GoTaskRun 0%nat; GoTaskRun 1%nat] /\
    delayQueue m = [].
Proof.
  eexists _, _. split; [vm_compute; reflexivity|].
  repeat split; vm_compute; reflexivity.
Qed.

(** The course of a call, by the result of its first [Pop]: on a bucket,
    [AdvanceClock] advances the wheel to the bucket's expiration and flushes
    it, then asks the queue again with the same waiting [Pop ctx], bucket
    after bucket ([Drains]); a call that returns, returns [true] exactly when
    the first [Pop] yielded a bucket. *)
Theorem AdvanceClock_drains_with_the_same_Pop ctx t m :
  match Pop ctx m with
  | Some (Some (DTaskList v), m1) => Drains ctx v t m1 (AdvanceClock ctx t m)
  | Some (Some (DOther _), m1) =>
      AdvanceClock ctx t m = Panicked DidNotFoundTaskList t m1
  | Some (None, m1) => AdvanceClock ctx t m = Returned false t m1
  | None => AdvanceClock ctx t m = Blocked t m
  end /\
  forall b t' m',
    AdvanceClock ctx t m = Returned b t' m' ->
    (b = true <-> exists v m1, Pop ctx m = Some (Some (DTaskList v), m1)).
Proof.
  split.
  - destruct (Pop ctx m) as [[[[v|d]|] m1]|] eqn:HP.
    + apply (AdvanceClock_loop_Drains (length (delayQueue m1))).
      now apply AdvanceClock_bucket.
    + unfold AdvanceClock. now rewrite HP.
    + unfold AdvanceClock. now rewrite HP.
    + unfold AdvanceClock. now rewrite HP.
  - intros b t' m' E.
    destruct (Pop ctx m) as [[[[v|d]|] m1]|] eqn:HP.
    + pose proof (AdvanceClock_bucket ctx t m v m1 HP) as HL.
      apply AdvanceClock_loop_Drains in HL.
      rewrite (Drains_returns_true _ _ _ _ _ HL _ _ _ E). split; eauto.
    + unfold AdvanceClock in E. rewrite HP in E. discriminate.
    + unfold AdvanceClock in E. rewrite HP in E. injection E as <- _ _.
      split; [discriminate|]. intros (v & m2 & ?). discriminate.
    + unfold AdvanceClock in E. rewrite HP in E. discriminate.
Qed.

(** ** Panics *)

Lemma AdvanceClock_loop_polls (fuel : nat) ctx v t m o :
  AdvanceClock_loop fuel ctx v t m = Some o ->
  exists ps, polled (memOf o) = polled m ++ ps /\
    (panics o = true <-> exists d, In (Some (DOther d)) ps).
Proof.
  revert v t m. induction fuel as [|fuel IH]; intros v t m H; cbn in H;
    destruct (flush_flushVisitor v m) as (_ & _ & _ & Hp & _);
    destruct (Pop ctx (flush v flushVisitor m)) as [[[[l|d]|] m2]|] eqn:HP;
    try discriminate.
  all: try (apply Pop_frame in HP; destruct HP as [_ _ _ _ HP _ _];
            rewrite Hp in HP).
  all: try (injection H as <-; cbn [memOf panics]).
  - exists [Some (DOther d)]. split; [exact HP|]. split; cbn; eauto.
  - exists [None]. split; [exact HP|].
    split; [discriminate|]. intros (d & [?|[]]). discriminate.
  - exists []. rewrite app_nil_r. split; [exact Hp|].
    split; [discriminate|]. intros (d & []).
  - destruct (IH _ _ _ H) as (ps & Hps & Hiff).
    exists (Some (DTaskList l) :: ps). split.
    + rewrite Hps, HP, <- app_assoc. reflexivity.
    + rewrite Hiff. split; intros (d & Hd); exists d; cbn in *; [tauto|].
      destruct Hd as [?|?]; [discriminate|assumption].
  - exists [Some (DOther d)]. split; [exact HP|]. split; cbn; eauto.
  - exists [None]. split; [exact HP|].
    split; [discriminate|]. intros (d & [?|[]]). discriminate.
  - exists []. rewrite app_nil_r. split; [exact Hp|].
    split; [discriminate|]. intros (d & []).
Qed.

(** The poll log of a call: [ps] are the results of the polls the call made,
    in order, and the call panics if and only if one of them is an object
    that is neither nil nor a bucket. *)
Theorem AdvanceClock_panics_iff_foreign_object ctx t m :
  exists ps,
    polled (memOf (AdvanceClock ctx t m)) = polled m ++ ps /\
    (panics (AdvanceClock ctx t m) = true <-> exists d, In (Some (DOther d)) ps).
Proof.
  destruct (Pop ctx m) as [[[[v|d]|] m1]|] eqn:HP.
  - pose proof (AdvanceClock_bucket ctx t m v m1 HP) as HL.
    destruct (AdvanceClock_loop_polls _ _ _ _ _ _ HL) as (ps & Hps & Hiff).
    apply Pop_frame in HP. destruct HP as [_ _ _ _ HP _ _].
    exists (Some (DTaskList v) :: ps). split.
    + rewrite Hps, HP, <- app_assoc. reflexivity.
    + rewrite Hiff. split; intros (d & Hd); exists d; cbn in *; [tauto|].
      destruct Hd as [?|?]; [discriminate|assumption].
  - unfold AdvanceClock. rewrite HP. cbn.
    apply Pop_frame in HP. destruct HP as [_ _ _ _ HP _ _].
    exists [Some (DOther d)]. split; [exact HP|]. split; cbn; eauto.
  - unfold AdvanceClock. rewrite HP. cbn.
    apply Pop_frame in HP. destruct HP as [_ _ _ _ HP _ _].
    exists [None]. split; [exact HP|].
    split; [discriminate|]. intros (d & [?|[]]). discriminate.
  - unfold AdvanceClock. rewrite HP. cbn.
    exists []. rewrite app_nil_r. split; [reflexivity|].
    split; [discriminate|]. intros (d & []).
Qed.

(** What [Pop] yields depends on the queue, the clock and the context
    only. *)
Lemma Pop_same_queue ctx m m' r m1 :
  delayQueue m' = delayQueue m -> clock m' = clock m ->
  Pop ctx m = Some (r, m1) ->
  exists m1', Pop ctx m' = Some (r, m1') /\
    delayQueue m1' = delayQueue m1 /\ clock m1' = clock m1.
Proof.
  intros Hq Hc. unfold Pop. rewrite Hq, Hc.
  destruct (delayQueue m) as [|[k x] q]; destruct (doneAt ctx) as [d|];
    repeat case_match; intros E; simplify_eq; eexists; (split; [reflexivity|]);
    split; reflexivity.
Qed.

Lemma PopsForeign_same_queue ctx m m' :
  delayQueue m' = delayQueue m -> clock m' = clock m ->
  PopsForeign ctx m -> PopsForeign ctx m'.
Proof.
  intros Hq Hc H. revert m' Hq Hc.
  induction H as [m d m1 HP|m v m1 HP _ IH]; intros m' Hq Hc;
    destruct (Pop_same_queue ctx m m' _ m1 Hq Hc HP) as (m1' & HP' & Hq' & Hc').
  - eapply PopsForeign_now; exact HP'.
  - eapply PopsForeign_later; [exact HP'|]. now apply IH.
Qed.

Lemma PopsForeign_flush ctx v m :
  PopsForeign ctx (flush v flushVisitor m) <-> PopsForeign ctx m.
Proof.
  destruct (flush_flushVisitor v m) as (Hq & _ & _ & _ & Hc).
  split; apply PopsForeign_same_queue; congruence.
Qed.

Lemma PopsForeign_inv ctx m :
  PopsForeign ctx m <->
  match Pop ctx m with
  | Some (Some (DOther _), _) => True
  | Some (Some (DTaskList _), m1) => PopsForeign ctx m1
  | _ => False
  end.
Proof.
  split.
  - intros H. destruct H as [m d m1 HP|m v m1 HP H]; now rewrite HP.
  - destruct (Pop ctx m) as [[[[v|d]|] m1]|] eqn:HP; intros H; try easy.
    + eapply PopsForeign_later; eassumption.
    + eapply PopsForeign_now; eassumption.
Qed.

Lemma AdvanceClock_loop_PopsForeign (fuel : nat) ctx v t m o :
  AdvanceClock_loop fuel ctx v t m = Some o ->
  (panics o = true <-> PopsForeign ctx m).
Proof.
  revert v t m. induction fuel as [|fuel IH]; intros v t m H; cbn in H;
    rewrite <- (PopsForeign_flush ctx v m), PopsForeign_inv;
    destruct (Pop ctx (flush v flushVisitor m)) as [[[[l|d]|] m2]|] eqn:HP;
    simplify_eq; cbn [panics]; try easy.
  eapply IH; exact H.
Qed.

(** The outcome of a drain is the one [Drains] gives, and no other. *)
Lemma Drains_functional ctx v t m o o' :
  Drains ctx v t m o -> Drains ctx v t m o' -> o = o'.
Proof.
  intros H. revert o'.
  induction H as [v t m m2 HP|v t m v' m2 o HP _ IH|v t m d m2 HP|v t m HP];
    intros o' H'; inversion H'; subst; simplify_eq; try reflexivity.
  now apply IH.
Qed.

(** C8: [AdvanceClock] panics if and only if the queue of the memory it is
    called on, asked with [Pop ctx], yields an object that is neither nil nor
    a bucket, at once or after some buckets.  On such an object at the first
    [Pop] the panic is the one of the checked assertion and the timer is
    untouched; on nil the call returns [false]; on a bucket the call
    processes it and goes on as [Drains] says, every bucket being advanced to
    and flushed before the next [Pop], and of a later object that is not a
    bucket the panic is the one of the unchecked assertion. *)
Theorem AdvanceClock_panics_iff_Pop_yields_foreign_object ctx t m :
  (panics (AdvanceClock ctx t m) = true <-> PopsForeign ctx m) /\
  match Pop ctx m with
  | Some (Some (DOther _), m1) =>
      AdvanceClock ctx t m = Panicked DidNotFoundTaskList t m1
  | Some (None, m1) => AdvanceClock ctx t m = Returned false t m1
  | Some (Some (DTaskList v), m1) =>
      Drains ctx v t m1 (AdvanceClock ctx t m) /\
      (forall o, Drains ctx v t m1 o -> o = AdvanceClock ctx t m) /\
      (forall t' m', AdvanceClock ctx t m <> Panicked DidNotFoundTaskList t' m')
  | None => AdvanceClock ctx t m = Blocked t m
  end.
Proof.
  split.
  - rewrite PopsForeign_inv.
    destruct (Pop ctx m) as [[[[v|d]|] m1]|] eqn:HP.
    + apply (AdvanceClock_loop_PopsForeign (length (delayQueue m1)) ctx v t).
      now apply AdvanceClock_bucket.
    + unfold AdvanceClock. now rewrite HP.
    + unfold AdvanceClock. now rewrite HP.
    + unfold AdvanceClock. now rewrite HP.
  - destruct (Pop ctx m) as [[[[v|d]|] m1]|] eqn:HP.
    + assert (HD : Drains ctx v t m1 (AdvanceClock ctx t m)).
      { apply (AdvanceClock_loop_Drains (length (delayQueue m1))).
        now apply AdvanceClock_bucket. }
      split; [exact HD|]. split.
      * intros o Ho. exact (Drains_functional _ _ _ _ _ _ Ho HD).
      * intros t' m' E. rewrite E in HD. clear E HP.
        remember (Panicked DidNotFoundTaskList t' m') as o eqn:Eo.
        induction HD; try discriminate. now apply IHHD.
    + unfold AdvanceClock. now rewrite HP.
    + unfold AdvanceClock. now rewrite HP.
    + unfold AdvanceClock. now rewrite HP.
Qed.

(** ** The call that finds nothing *)

(** C9: when the first [Pop] yields nil, [AdvanceClock] returns [false]; the
    timer (wheel clock, counter, wheel structure) is the one it was called
    on, and the buckets, the entries, the delay queue, the goroutines and the
    invocations are as before the call. *)
Theorem AdvanceClock_nil_leaves_timer_unchanged ctx t m m1 :
  Pop ctx m = Some (None, m1) ->
  AdvanceClock ctx t m = Returned false t m1 /\
  taskLists m1 = taskLists m /\ taskEntries m1 = taskEntries m /\
  delayQueue m1 = delayQueue m /\ goroutines m1 = goroutines m /\
  invoked m1 = invoked m.
Proof.
  intros HP. unfold AdvanceClock. rewrite HP.
  apply Pop_frame in HP. destruct HP. tauto.
Qed.

(** An instance: the context fires at 3 ms, before the first bucket is due. *)
Lemma AdvanceClock_nil_leaves_timer_unchanged_witness :
  AdvanceClock (until (3 * ms)) (fst twoBuckets) (snd twoBuckets)
    = Returned false (fst twoBuckets)
        (afterPop (delayQueue (snd twoBuckets)) (3 * ms) None (snd twoBuckets)) /\
  taskLists (afterPop (delayQueue (snd twoBuckets)) (3 * ms) None (snd twoBuckets))
    = taskLists (snd twoBuckets).
Proof.
  pose proof (AdvanceClock_nil_leaves_timer_unchanged
                (until (3 * ms)) (fst twoBuckets) (snd twoBuckets)
                (afterPop (delayQueue (snd twoBuckets)) (3 * ms) None (snd twoBuckets))
                ltac:(vm_compute; reflexivity)) as H.
  split; [apply H|apply H].
Defined.

(** ** What the wheel's [add] touches *)

Lemma AddFrame_refl m : AddFrame m m.
Proof. now split. Qed.

Lemma AddFrame_trans m1 m2 m3 : AddFrame m1 m2 -> AddFrame m2 m3 -> AddFrame m1 m3.
Proof.
  intros [A1 A2 A3 A4 A5 A6 A7] [B1 B2 B3 B4 B5 B6 B7].
  split; intros; congruence.
Qed.

Lemma AddFrame_setLists f m : AddFrame m (setLists f m).
Proof. now split. Qed.

Lemma AddFrame_setDelayQueue q m : AddFrame m (setDelayQueue q m).
Proof. now split. Qed.

Lemma AddFrame_setList e l m : AddFrame m (setList e l m).
Proof.
  split; try reflexivity; intros e'; unfold cancelled, getEntry, setList; cbn;
    (destruct (decide (e = e')) as [->|Hne];
     [rewrite lookup_alter_eq; now destruct (taskEntries m !! e')
     |now rewrite lookup_alter_ne]).
Qed.

Lemma AddFrame_TaskList_add l e m : AddFrame m (TaskList_add l e m).
Proof.
  unfold TaskList_add.
  eapply AddFrame_trans; [apply AddFrame_setLists|apply AddFrame_setList].
Qed.

Lemma AddFrame_newTaskLists n m :
  AddFrame m (snd (newTaskLists n m)).
Proof.
  revert m. induction n as [|n IH]; intros m; cbn; [apply AddFrame_refl|].
  specialize (IH (setLists <[fresh (dom (taskLists m)) := emptyTaskList]> m)).
  destruct (newTaskLists n _) as [ls m'] eqn:E. cbn in *.
  eapply AddFrame_trans; [apply AddFrame_setLists|exact IH].
Qed.

Lemma AddFrame_NewTimingWheel tick size start m :
  AddFrame m (snd (NewTimingWheel tick size start m)).
Proof.
  unfold NewTimingWheel.
  pose proof (AddFrame_newTaskLists (Z.to_nat size) m) as H.
  destruct (newTaskLists _ m) as [bs m']. exact H.
Qed.

Lemma add_levels_frame (fuel : nat) w e m ok w' m' :
  add_levels fuel w e m = Some (ok, w', m') -> AddFrame m m'.
Proof.
  revert w m ok w' m'. induction fuel as [|fuel IH]; intros w m ok w' m' H;
    cbn in H;
    destruct (cancelled m e); simplify_eq; try apply AddFrame_refl;
    destruct (_ <? w_currentTime w + w_tickMs w); simplify_eq;
      try apply AddFrame_refl;
    destruct (_ <? w_currentTime w + w_interval w).
  1,3: destruct (w_buckets w !! _) as [b|]; [|discriminate];
       injection H as <- <- <-;
       (eapply AddFrame_trans; [apply AddFrame_TaskList_add|]);
       (eapply AddFrame_trans; [apply AddFrame_setLists|]);
       destruct (negb _); [apply AddFrame_setDelayQueue|apply AddFrame_refl].
  - discriminate.
  - destruct (w_overflowWheel w) as [o|].
    + destruct (add_levels fuel o e m) as [[[ok1 o1] m2]|] eqn:E; [|discriminate].
      injection H as <- <- <-. eauto.
    + pose proof (AddFrame_NewTimingWheel (w_interval w) (w_wheelSize w)
                    (w_currentTime w) m) as HN.
      destruct (NewTimingWheel _ _ _ m) as [o m1].
      destruct (add_levels fuel o e m1) as [[[ok1 o1] m2]|] eqn:E; [|discriminate].
      injection H as <- <- <-. eapply AddFrame_trans; [exact HN|eauto].
Qed.

(** A rejected entry was put in no bucket: the entries are untouched. *)
Lemma add_levels_rejected_entries (fuel : nat) w e m w' m' :
  add_levels fuel w e m = Some (false, w', m') -> taskEntries m' = taskEntries m.
Proof.
  revert w m w' m'. induction fuel as [|fuel IH]; intros w m w' m' H;
    cbn in H;
    destruct (cancelled m e); simplify_eq; try reflexivity;
    destruct (_ <? w_currentTime w + w_tickMs w); simplify_eq; try reflexivity;
    destruct (_ <? w_currentTime w + w_interval w).
  1,3: destruct (w_buckets w !! _) as [b|]; discriminate.
  - discriminate.
  - destruct (w_overflowWheel w) as [o|].
    + destruct (add_levels fuel o e m) as [[[ok1 o1] m2]|] eqn:E; [|discriminate].
      injection H as -> <- <-. eauto.
    + unfold NewTimingWheel in H.
      destruct (newTaskLists (Z.to_nat (w_wheelSize w)) m) as [bs m1] eqn:EN.
      destruct (add_levels fuel _ e m1) as [[[ok1 o1] m2]|] eqn:E; [|discriminate].
      injection H as -> <- <-.
      rewrite (IH _ _ _ _ E).
      clear -EN. revert m bs m1 EN.
      induction (Z.to_nat (w_wheelSize w)) as [|n IHn]; intros m bs m1 EN; cbn in EN.
      * now injection EN as <- <-.
      * destruct (newTaskLists n _) as [ls m''] eqn:E'.
        injection EN as <- <-. now rewrite (IHn _ _ _ E').
Qed.

(** ** The wheel's [add] returns *)

Lemma newTaskLists_length n m : length (fst (newTaskLists n m)) = n.
Proof.
  revert m. induction n as [|n IH]; intros m; cbn; [reflexivity|].
  specialize (IH (setLists <[fresh (dom (taskLists m)) := emptyTaskList]> m)).
  destruct (newTaskLists n _) as [ls m']. cbn in *. now rewrite IH.
Qed.

Lemma NewTimingWheel_WheelOk tick size start m :
  0 < tick -> 2 <= size -> 0 <= start ->
  WheelOk (fst (NewTimingWheel tick size start m)).
Proof.
  intros Ht Hs H0. unfold NewTimingWheel.
  pose proof (newTaskLists_length (Z.to_nat size) m) as HL.
  destruct (newTaskLists _ m) as [bs m']. cbn in *.
  repeat split; try lia.
  pose proof (Z.mod_le start tick H0 Ht). lia.
Qed.

Lemma add_levels_returns (fuel : nat) w e m :
  WheelOk w ->
  expirationMs (getEntry m e) < w_interval w * 2 ^ Z.of_nat fuel ->
  is_Some (add_levels fuel w e m).
Proof.
  revert w m. induction fuel as [|fuel IH]; intros w m Hok Hexp.
  - destruct w as [tick size iv ct bs ov]; cbn in Hok.
    destruct Hok as (Ht & Hs & Hi & Hc & Hb & _).
    cbn [add_levels w_tickMs w_wheelSize w_interval w_currentTime w_buckets].
    cbn in Hexp.
    destruct (cancelled m e); [eauto|].
    destruct (_ <? ct + tick); [eauto|].
    destruct (_ <? ct + iv) eqn:E.
    + destruct (lookup_lt_is_Some_2 bs (Z.to_nat ((expirationMs (getEntry m e) / tick) mod size))) as [b Hbk].
      { rewrite Hb. pose proof (Z.mod_pos_bound (expirationMs (getEntry m e) / tick) size). lia. }
      rewrite Hbk. cbn. eauto.
    + apply Z.ltb_ge in E. lia.
  - destruct w as [tick size iv ct bs ov]; cbn in Hok.
    destruct Hok as (Ht & Hs & Hi & Hc & Hb & Hov).
    cbn [add_levels w_tickMs w_wheelSize w_interval w_currentTime w_buckets w_overflowWheel].
    cbn [w_interval] in Hexp.
    destruct (cancelled m e); [eauto|].
    destruct (_ <? ct + tick); [eauto|].
    destruct (_ <? ct + iv) eqn:E.
    + destruct (lookup_lt_is_Some_2 bs (Z.to_nat ((expirationMs (getEntry m e) / tick) mod size))) as [b Hbk].
      { rewrite Hb. pose proof (Z.mod_pos_bound (expirationMs (getEntry m e) / tick) size). lia. }
      rewrite Hbk. cbn. eauto.
    + assert (Hpow : 2 ^ Z.of_nat (S fuel) = 2 * 2 ^ Z.of_nat fuel).
      { rewrite Nat2Z.inj_succ, Z.pow_succ_r by lia. reflexivity. }
      assert (0 < 2 ^ Z.of_nat fuel) by (apply Z.pow_pos_nonneg; lia).
      assert (0 < iv) by nia.
      destruct ov as [o|].
      * destruct Hov as (Hto & Hso & Hoko).
        destruct (IH o m Hoko) as [[[ok o'] m2] Hr].
        { destruct o as [tick' size' iv' ct' bs' ov']; cbn in *.
          destruct Hoko as (_ & _ & Hi' & _). subst. nia. }
        rewrite Hr. eauto.
      * pose proof (NewTimingWheel_WheelOk iv size ct m ltac:(lia) Hs Hc) as HW.
        pose proof (AddFrame_NewTimingWheel iv size ct m) as HF.
        destruct (NewTimingWheel iv size ct m) as [o m1] eqn:EN. cbn [fst snd] in *.
        destruct (IH o m1 HW) as [[[ok o'] m2] Hr].
        { rewrite (af_expiration _ _ HF).
          unfold NewTimingWheel in EN. destruct (newTaskLists _ m) as [bs' m'].
          injection EN as <- <-. cbn. nia. }
        rewrite Hr. eauto.
Qed.

Lemma wrap64_range z : - 2 ^ 63 <= wrap64 z < 2 ^ 63.
Proof.
  unfold wrap64. pose proof (Z.mod_pos_bound (z + 2 ^ 63) (2 ^ 64)). lia.
Qed.

Lemma add_returns w e m :
  WheelOk w -> expirationMs (getEntry m e) < 2 ^ 63 ->
  is_Some (add w e m).
Proof.
  intros Hok Hexp. apply add_levels_returns; [exact Hok|].
  destruct w as [tick size iv ct bs ov]; cbn in *.
  destruct Hok as (Ht & Hs & Hi & _).
  assert (2 ^ Z.of_nat maxLevels = 2 ^ 64) as -> by reflexivity.
  nia.
Qed.

(** ** Well-formed wheels stay well formed *)

Lemma advanceClock_WheelOk (w : TimingWheel) (t : Z) :
  WheelOk w -> WheelOk (advanceClock w t).
Proof.
  revert w. fix advanceClock_WheelOk 1.
  intros w. destruct w as [tick size iv ct bs ov]. intros Hok.
  cbn in Hok. destruct Hok as (Ht & Hs & Hi & Hc & Hb & Hov).
  cbn [advanceClock w_tickMs w_wheelSize w_interval w_currentTime w_buckets
       w_overflowWheel].
  destruct (ct + tick <=? t) eqn:E.
  - apply Z.leb_le in E.
    pose proof (Z.mod_le t tick ltac:(lia) Ht).
    destruct ov as [o|].
    + destruct Hov as (Hto & Hso & Hoko).
      pose proof (advanceClock_WheelOk o Hoko) as IH.
      cbn. repeat split; try lia; try exact IH.
      * destruct o as [tick' size' iv' ct' bs' ov']. cbn in *.
        destruct (ct' + tick' <=? t); cbn; lia.
      * destruct o as [tick' size' iv' ct' bs' ov']. cbn in *.
        destruct (ct' + tick' <=? t); cbn; lia.
    + cbn. repeat split; try lia.
  - cbn. repeat split; try lia. exact Hov.
Qed.

Lemma add_levels_WheelOk (fuel : nat) w e m ok w' m' :
  WheelOk w -> add_levels fuel w e m = Some (ok, w', m') ->
  WheelOk w' /\ w_tickMs w' = w_tickMs w /\ w_wheelSize w' = w_wheelSize w /\
  w_interval w' = w_interval w.
Proof.
  revert w m ok w' m'. induction fuel as [|fuel IH]; intros w m ok w' m' Hok H;
    cbn in H;
    destruct (cancelled m e); simplify_eq; auto;
    destruct (_ <? w_currentTime w + w_tickMs w); simplify_eq; auto;
    destruct (_ <? w_currentTime w + w_interval w).
  1,3: destruct (w_buckets w !! _) as [b|]; [|discriminate];
       injection H as <- <- <-; auto.
  - discriminate.
  - destruct w as [tick size iv ct bs ov]. cbn in Hok.
    destruct Hok as (Ht & Hs & Hi & Hc & Hb & Hov).
    cbn [w_tickMs w_wheelSize w_interval w_currentTime w_buckets
         w_overflowWheel] in H.
    assert (0 < iv) by nia.
    destruct ov as [o|].
    + destruct Hov as (Hto & Hso & Hoko).
      destruct (add_levels fuel o e m) as [[[ok1 o1] m2]|] eqn:E; [|discriminate].
      injection H as <- <- <-.
      destruct (IH _ _ _ _ _ Hoko E) as (Hok1 & Ht1 & Hs1 & Hi1).
      cbn. repeat split; try lia; try exact Hok1.
    + pose proof (NewTimingWheel_WheelOk iv size ct m ltac:(lia) Hs Hc) as HW.
      destruct (NewTimingWheel iv size ct m) as [o m1] eqn:EN. cbn [fst] in HW.
      assert (w_tickMs o = iv /\ w_wheelSize o = size) as [Hto Hso].
      { unfold NewTimingWheel in EN. destruct (newTaskLists _ m).
        now injection EN as <- <-. }
      destruct (add_levels fuel o e m1) as [[[ok1 o1] m2]|] eqn:E; [|discriminate].
      injection H as <- <- <-.
      destruct (IH _ _ _ _ _ HW E) as (Hok1 & Ht1 & Hs1 & Hi1).
      cbn. repeat split; try lia; try exact Hok1.
Qed.

(** ** Submission *)

Lemma runGoroutine_started gs e gs' m :
  goroutines m = gs ++ GoTaskRun e :: gs' ->
  invoked (runGoroutine (length gs) m) = invoked m ++ [action (task (getEntry m e))].
Proof.
  intros Hg. unfold runGoroutine.
  rewrite Hg, list_lookup_middle by reflexivity. reflexivity.
Qed.

(** C5: when the wheel's [add] rejects the entry, [addTimerTaskEntry] returns
    normally (no panic, no error value) and runs no action itself; if the
    entry is not cancelled it starts exactly one goroutine, whose run invokes
    the entry's action; if it is cancelled it does nothing further. *)
Theorem addTimerTaskEntry_rejected e t m w m1 :
  add (timingWheel t) e m = Some (false, w, m1) ->
  exists m',
    addTimerTaskEntry e t m = Returned tt (setTimingWheel w t) m' /\
    invoked m' = invoked m /\
    if cancelled m e
    then m' = m1 /\ goroutines m' = goroutines m
    else goroutines m' = goroutines m ++ [GoTaskRun e] /\
         invoked (runGoroutine (length (goroutines m)) m')
           = invoked m ++ [action (task (getEntry m e))].
Proof.
  intros H. unfold addTimerTaskEntry. rewrite H.
  pose proof (add_levels_frame _ _ _ _ _ _ _ H) as [Fg Fi _ _ Ft _ Fc].
  rewrite Fc. destruct (cancelled m e); cbn [negb].
  - exists m1. auto.
  - exists (go (GoTaskRun e) m1). split; [reflexivity|].
    split; [exact Fi|]. split; [cbn; now rewrite Fg|].
    rewrite (runGoroutine_started (goroutines m) e []); [|cbn; now rewrite Fg].
    cbn. rewrite Fi. f_equal. f_equal. f_equal. apply Ft.
Qed.

(** An instance: a task of delay zero is rejected by the wheel and started. *)
Lemma addTimerTaskEntry_rejected_witness :
  exists m',
    addTimerTaskEntry (fst zeroDelay) (fst timer0) (snd zeroDelay)
      = Returned tt (setTimingWheel (timingWheel (fst timer0)) (fst timer0)) m' /\
    invoked m' = [] /\
    goroutines m' = [GoTaskRun (fst zeroDelay)] /\
    invoked (runGoroutine 0 m') = [7%nat].
Proof.
  destruct (addTimerTaskEntry_rejected (fst zeroDelay) (fst timer0) (snd zeroDelay)
              (timingWheel (fst timer0)) (snd zeroDelay)
              ltac:(vm_compute; reflexivity)) as (m' & H1 & H2 & H3).
  exists m'. split; [exact H1|]. split; [exact H2|]. exact H3.
Defined.

(** ** Dispatch *)

Lemma AdvanceClock_loop_dispatch (fuel : nat) ctx v t m o :
  AdvanceClock_loop fuel ctx v t m = Some o ->
  invoked (memOf o) = invoked m /\
  exists es, goroutines (memOf o)
             = goroutines m ++ map GoTaskRun (entries (getList m v) ++ es).
Proof.
  revert v t m. induction fuel as [|fuel IH]; intros v t m H; cbn in H;
    destruct (flush_flushVisitor v m) as (_ & Hg & Hi & _);
    destruct (Pop ctx (flush v flushVisitor m)) as [[[[l|d]|] m2]|] eqn:HP;
    try discriminate.
  all: try (apply Pop_frame in HP; destruct HP as [_ _ HPg HPi _ _ _]).
  all: try (injection H as <-; cbn [memOf];
            split; [congruence|exists []; rewrite app_nil_r, <- Hg; congruence]).
  destruct (IH _ _ _ H) as (Hi' & es & Hes). split; [congruence|].
  exists (entries (getList m2 l) ++ es).
  rewrite Hes, HPg, Hg, !map_app, !app_assoc. reflexivity.
Qed.

(** C10: neither [Add] nor [AdvanceClock] invokes an action on its own
    thread: over either call the invocations are unchanged and the only
    effect on the goroutines is that new ones, each [e.task.run()] of an
    entry, were started; an action is invoked when the scheduler runs such a
    goroutine. *)
Theorem actions_are_started_as_goroutines_never_run_inline :
  (forall tk now t m,
     invoked (memOf (Add tk now t m)) = invoked m /\
     exists es, goroutines (memOf (Add tk now t m))
                = goroutines m ++ map GoTaskRun es) /\
  (forall ctx t m,
     invoked (memOf (AdvanceClock ctx t m)) = invoked m /\
     exists es, goroutines (memOf (AdvanceClock ctx t m))
                = goroutines m ++ map GoTaskRun es) /\
  (forall m gs e gs',
     goroutines m = gs ++ GoTaskRun e :: gs' ->
     invoked (runGoroutine (length gs) m)
       = invoked m ++ [action (task (getEntry m e))]).
Proof.
  split; [|split].
  - intros tk now t m. unfold Add, NewTaskEntry, addTimerTaskEntry.
    set (e := fresh (dom (taskEntries m))).
    set (m0 := setEntries _ m).
    destruct (add (timingWheel t) e m0) as [[[[|] w] m1]|] eqn:HA; cbn [memOf].
    + apply add_levels_frame in HA. destruct HA as [Fg Fi _ _ _ _ _].
      split; [exact Fi|]. exists []. cbn. now rewrite Fg, app_nil_r.
    + apply add_levels_frame in HA. destruct HA as [Fg Fi _ _ _ _ _].
      destruct (negb (cancelled m1 e)); cbn [memOf].
      * split; [exact Fi|]. exists [e]. cbn. now rewrite Fg.
      * split; [exact Fi|]. exists []. cbn. now rewrite Fg, app_nil_r.
    + split; [reflexivity|]. exists []. cbn. now rewrite app_nil_r.
  - intros ctx t m.
    destruct (Pop ctx m) as [[[[v|d]|] m1]|] eqn:HP.
    + pose proof (AdvanceClock_bucket ctx t m v m1 HP) as HL.
      apply AdvanceClock_loop_dispatch in HL.
      apply Pop_frame in HP. destruct HP as [_ _ HPg HPi _ _ _].
      rewrite <- HPg, <- HPi. destruct HL as (HLi & es & HLg). eauto.
    + unfold AdvanceClock. rewrite HP. cbn.
      apply Pop_frame in HP. destruct HP as [_ _ HPg HPi _ _ _].
      split; [exact HPi|]. exists []. cbn. now rewrite app_nil_r.
    + unfold AdvanceClock. rewrite HP. cbn.
      apply Pop_frame in HP. destruct HP as [_ _ HPg HPi _ _ _].
      split; [exact HPi|]. exists []. cbn. now rewrite app_nil_r.
    + unfold AdvanceClock. rewrite HP. cbn.
      split; [reflexivity|]. exists []. cbn. now rewrite app_nil_r.
  - intros m gs e gs'. apply runGoroutine_started.
Qed.

(** ** Where the timer departs from its documentation *)

(** C1 (defect of the code): the flushed entry is not offered to the wheel's
    [add].  The entry is due at 25 ms and waits in the overflow bucket armed
    for 20 ms.  [AdvanceClock] dequeues that bucket at 20 ms, advances the
    wheel to 20 ms and starts the entry's goroutine at once, 5 ms early; the
    wheel's [add], asked at that point, accepts the entry (it would move it
    to the base wheel). *)
Theorem AdvanceClock_runs_overflow_entry_without_add :
  let o := AdvanceClock (until (20 * ms)) (fst overflowEntry) (snd overflowEntry) in
  o = Returned true (timerOf o) (memOf o) /\
  w_currentTime (timingWheel (timerOf o)) = 20 * ms /\
  clock (memOf o) = 20 * ms /\
  expirationMs (getEntry (memOf o) 0%nat) = 25 * ms /\
  goroutines (memOf o) = [GoTaskRun 0%nat] /\
  invoked (runAll (memOf o)) = [8%nat] /\
  (fun r => fst (fst r)) <$> add (timingWheel (timerOf o)) 0%nat (memOf o)
    = Some true.
Proof. vm_compute. repeat split; reflexivity. Qed.

(** C2 (defect of the code): the visitor of [AdvanceClock] does not look at
    the cancelled flag.  The entry is cancelled before its bucket is flushed;
    the flush still starts its goroutine and the action is invoked. *)
Theorem AdvanceClock_runs_cancelled_entry :
  let o := AdvanceClock (until (10 * ms)) (fst cancelledEntry) (snd cancelledEntry) in
  cancelled (snd cancelledEntry) 0%nat = true /\
  entries (getList (snd cancelledEntry) 5%nat) = [0%nat] /\
  o = Returned true (timerOf o) (memOf o) /\
  goroutines (memOf o) = [GoTaskRun 0%nat] /\
  invoked (runAll (memOf o)) = [7%nat].
Proof. vm_compute. repeat split; reflexivity. Qed.

(** ** The counter *)

Lemma AdvanceClock_loop_taskCounter (fuel : nat) ctx v t m o :
  AdvanceClock_loop fuel ctx v t m = Some o ->
  taskCounter (timerOf o) = taskCounter t.
Proof.
  revert v t m. induction fuel as [|fuel IH]; intros v t m H; cbn in H;
    destruct (Pop ctx (flush v flushVisitor m)) as [[[[l|d]|] m2]|];
    simplify_eq; try reflexivity.
  now rewrite (IH _ _ _ H).
Qed.

Lemma AdvanceClock_taskCounter ctx t m :
  taskCounter (timerOf (AdvanceClock ctx t m)) = taskCounter t.
Proof.
  destruct (Pop ctx m) as [[[[v|d]|] m1]|] eqn:HP.
  - pose proof (AdvanceClock_bucket ctx t m v m1 HP) as HL.
    now apply AdvanceClock_loop_taskCounter in HL.
  - unfold AdvanceClock. now rewrite HP.
  - unfold AdvanceClock. now rewrite HP.
  - unfold AdvanceClock. now rewrite HP.
Qed.

Lemma Add_taskCounter tk now t m :
  taskCounter (timerOf (Add tk now t m)) = taskCounter t.
Proof.
  unfold Add, NewTaskEntry, addTimerTaskEntry.
  destruct (add _ _ _) as [[[[|] w] m1]|]; [reflexivity| |reflexivity].
  destruct (negb _); reflexivity.
Qed.

Lemma step_taskCounter op s :
  taskCounter (fst (step op s)) = taskCounter (fst s).
Proof.
  destruct s as [t m]. destruct op; unfold step; cbn [fst snd]; try reflexivity.
  - apply Add_taskCounter.
  - apply AdvanceClock_taskCounter.
Qed.

Lemma steps_taskCounter ops s :
  taskCounter (fst (steps ops s)) = taskCounter (fst s).
Proof.
  revert s. induction ops as [|op ops IH]; intros s; [reflexivity|].
  cbn. unfold steps in IH. now rewrite IH, step_taskCounter.
Qed.

(** C3 (defect of the code): nothing ever writes the counter.  After any
    history of submissions, cancellations, clock advances, shutdowns and
    goroutine runs on a new timer, [Size()] is 0; so it is with one entry
    submitted and still pending in its bucket. *)
Theorem Size_is_always_zero :
  (forall tick size now ops,
     Size (fst (steps ops (NewSystemTimer tick size now))) = 0) /\
  (let s := steps [OpAdd (mkTask (5 * ms) 7) 0] timer0 in
   entries (getList (snd s) 5%nat) = [0%nat] /\
   goroutines (snd s) = [] /\ invoked (snd s) = [] /\
   Size (fst s) = 0).
Proof.
  split.
  - intros tick size now ops. unfold Size. rewrite steps_taskCounter.
    unfold NewSystemTimer. now destruct (NewTimingWheel _ _ _ _).
  - vm_compute. repeat split; reflexivity.
Qed.

(** ** The time base *)

Lemma getEntry_NewTaskEntry tk exp m :
  getEntry (snd (NewTaskEntry tk exp m)) (fst (NewTaskEntry tk exp m))
    = mkTaskEntry tk exp false None.
Proof.
  unfold NewTaskEntry, getEntry. cbn. now rewrite lookup_insert_eq.
Qed.

(** The expiration [Add] gives the new entry. *)
Lemma Add_expiration tk now t m :
  expirationMs (getEntry (memOf (Add tk now t m)) (fresh (dom (taskEntries m))))
    = wrap64 (delayMs tk + Nanosecond now).
Proof.
  pose proof (getEntry_NewTaskEntry tk (wrap64 (delayMs tk + Nanosecond now)) m) as HN.
  unfold Add, addTimerTaskEntry.
  destruct (NewTaskEntry tk _ m) as [e m0] eqn:EN.
  assert (e = fresh (dom (taskEntries m))) as <- by (now injection EN).
  cbn [fst snd] in HN.
  destruct (add (timingWheel t) e m0) as [[[[|] w] m1]|] eqn:HA; cbn [memOf].
  - apply add_levels_frame in HA. destruct HA as [_ _ _ _ _ Fe _].
    now rewrite Fe, HN.
  - apply add_levels_frame in HA. destruct HA as [_ _ _ _ _ Fe _].
    destruct (negb _); cbn [memOf]; [unfold go, getEntry; cbn|];
      fold (getEntry m1 e); now rewrite Fe, HN.
  - now rewrite HN.
Qed.

(** C4 (defect of the code): the instant of submission enters the expiration
    only through [Nanosecond()], its offset within the current second.  Of
    two submissions with the same 5 ms delay, at 0.9 s and at 1.1 s, the
    later one gets the smaller expiration. *)
Theorem Add_uses_offset_within_second :
  (forall tk now t m,
     expirationMs (getEntry (memOf (Add tk now t m)) (fresh (dom (taskEntries m))))
       = wrap64 (delayMs tk + now mod 1000000000)) /\
  expirationMs (getEntry (snd acrossSecond) 0%nat) = 905 * ms /\
  expirationMs (getEntry (snd acrossSecond) 1%nat) = 105 * ms.
Proof.
  split; [exact Add_expiration|]. vm_compute. split; reflexivity.
Qed.

(** ** Shutdown *)

(** C7 (defect of the code): [Shutdown()] has an empty body.  It changes
    neither the timer nor the memory, so the next [AdvanceClock] behaves as
    if it had not been called: the entry pending at the shutdown is dequeued,
    its goroutine is started and its action is invoked. *)
Theorem Shutdown_changes_nothing :
  (forall t m, Shutdown t m = (t, m)) /\
  (let o := AdvanceClock (until (10 * ms)) (fst shutDown) (snd shutDown) in
   entries (getList (snd shutDown) 5%nat) = [0%nat] /\
   o = Returned true (timerOf o) (memOf o) /\
   goroutines (memOf o) = [GoTaskRun 0%nat] /\
   invoked (runAll (memOf o)) = [7%nat]).
Proof.
  split; [reflexivity|]. vm_compute. repeat split; reflexivity.
Qed.

(** ** Further properties of [Add] and [AdvanceClock] *)

(** On a well-formed wheel [Add] returns normally: the levels the wheel may
    have to build for a 64-bit expiration are bounded. *)
Lemma Add_returns tk now t m :
  WheelOk (timingWheel t) ->
  exists t' m', Add tk now t m = Returned tt t' m'.
Proof.
  intros Hok.
  pose proof (getEntry_NewTaskEntry tk (wrap64 (delayMs tk + Nanosecond now)) m) as HN.
  unfold Add, addTimerTaskEntry.
  destruct (NewTaskEntry tk _ m) as [e m0]. cbn [fst snd] in HN.
  destruct (add_returns (timingWheel t) e m0 Hok) as [[[ok w] m1] HA].
  { rewrite HN. cbn. apply wrap64_range. }
  rewrite HA. destruct ok; [eauto|]. destruct (negb _); eauto.
Qed.

Lemma Add_WheelOk tk now t m :
  WheelOk (timingWheel t) -> WheelOk (timingWheel (timerOf (Add tk now t m))).
Proof.
  intros Hok. unfold Add, NewTaskEntry, addTimerTaskEntry.
  destruct (add _ _ _) as [[[[|] w] m1]|] eqn:HA; cbn [timerOf].
  - now apply add_levels_WheelOk in HA.
  - apply add_levels_WheelOk in HA; [|exact Hok]. now destruct (negb _).
  - exact Hok.
Qed.

Lemma AdvanceClock_loop_WheelOk (fuel : nat) ctx v t m o :
  WheelOk (timingWheel t) ->
  AdvanceClock_loop fuel ctx v t m = Some o ->
  WheelOk (timingWheel (timerOf o)).
Proof.
  revert v t m. induction fuel as [|fuel IH]; intros v t m Hok H; cbn in H;
    destruct (Pop ctx (flush v flushVisitor m)) as [[[[l|d]|] m2]|];
    simplify_eq; cbn; try now apply advanceClock_WheelOk.
  eapply IH; [|exact H]. cbn. now apply advanceClock_WheelOk.
Qed.

Lemma AdvanceClock_WheelOk ctx t m :
  WheelOk (timingWheel t) ->
  WheelOk (timingWheel (timerOf (AdvanceClock ctx t m))).
Proof.
  intros Hok. destruct (Pop ctx m) as [[[[v|d]|] m1]|] eqn:HP.
  - pose proof (AdvanceClock_bucket ctx t m v m1 HP) as HL.
    now apply AdvanceClock_loop_WheelOk in HL.
  - unfold AdvanceClock. now rewrite HP.
  - unfold AdvanceClock. now rewrite HP.
  - unfold AdvanceClock. now rewrite HP.
Qed.

Lemma steps_WheelOk ops s :
  WheelOk (timingWheel (fst s)) -> WheelOk (timingWheel (fst (steps ops s))).
Proof.
  revert s. induction ops as [|op ops IH]; intros [t m] Hok; [exact Hok|].
  cbn. apply IH. destruct op; unfold step; cbn [fst snd]; try exact Hok.
  - now apply Add_WheelOk.
  - now apply AdvanceClock_WheelOk.
Qed.

Lemma NewSystemTimer_WheelOk tick size now :
  0 < tick -> 2 <= size -> WheelOk (timingWheel (fst (NewSystemTimer tick size now))).
Proof.
  intros Ht Hs. unfold NewSystemTimer.
  pose proof (NewTimingWheel_WheelOk tick size (Nanosecond now) emptyMem Ht Hs) as HW.
  destruct (NewTimingWheel _ _ _ _) as [w m]. apply HW.
  unfold Nanosecond. pose proof (Z.mod_pos_bound now 1000000000). lia.
Qed.

(** X2: when the first [Pop] yields a bucket, [AdvanceClock] starts a
    goroutine for each entry the bucket held, in the bucket's order and
    before any other, whatever the entries' expirations and cancelled
    flags. *)
Theorem AdvanceClock_starts_every_flushed_entry ctx t m :
  match Pop ctx m with
  | Some (Some (DTaskList v), _) =>
      exists es,
        goroutines (memOf (AdvanceClock ctx t m))
          = goroutines m ++ map GoTaskRun (entries (getList m v))
              ++ map GoTaskRun es
  | _ => True
  end.
Proof.
  destruct (Pop ctx m) as [[[[v|d]|] m1]|] eqn:HP; try exact I.
  pose proof (AdvanceClock_bucket ctx t m v m1 HP) as HL.
  apply AdvanceClock_loop_dispatch in HL. destruct HL as (_ & es & Hes).
  apply Pop_frame in HP. destruct HP as [HPl _ HPg _ _ _ _].
  exists es. rewrite Hes, HPg, map_app. unfold getList. now rewrite HPl.
Qed.

(** ** Scenarios of the design document *)

(** A delay beyond the 20 ms window creates the overflow level on demand:
    tick 20 ms, 20 slots, window 400 ms; its bucket is armed for 20 ms. *)
Example overflow_level_created_on_demand :
  (fun o => (w_tickMs o, w_wheelSize o, w_interval o))
    <$> w_overflowWheel (timingWheel (fst overflowEntry))
    = Some (20 * ms, 20, 400 * ms) /\
  fst <$> delayQueue (snd overflowEntry) = [20 * ms].
Proof. vm_compute. split; reflexivity. Qed.

(** Two tasks of delay zero are started at once, without any clock advance. *)
Example zero_delays_start_at_once :
  goroutines
    (snd (steps [OpAdd (mkTask 0 1) 0; OpAdd (mkTask 0 2) 0] timer0))
    = [GoTaskRun 0%nat; GoTaskRun 1%nat].
Proof. vm_compute. reflexivity. Qed.

(** A second [cancel] changes nothing. *)
Example cancel_twice :
  cancel 0%nat (snd cancelledEntry) = snd cancelledEntry.
Proof. vm_compute. reflexivity. Qed.

(** ** The time base of [Add] *)

Lemma Nanosecond_range now : 0 <= Nanosecond now < 1000000000.
Proof. unfold Nanosecond. apply Z.mod_pos_bound. lia. Qed.

Lemma wrap64_small z : - 2 ^ 63 <= z < 2 ^ 63 -> wrap64 z = z.
Proof.
  intros H. unfold wrap64. rewrite Z.mod_small; lia.
Qed.

(** X3: [Add] and [NewSystemTimer] see of the instant they are called at only
    its offset within the second: instants a whole number of seconds apart
    give the same result. *)
Theorem Add_sees_only_the_offset_within_the_second tk now k t m tick size :
  Add tk (now + k * 1000000000) t m = Add tk now t m /\
  NewSystemTimer tick size (now + k * 1000000000) = NewSystemTimer tick size now.
Proof.
  unfold Add, NewSystemTimer, Nanosecond.
  now rewrite Z_mod_plus_full.
Qed.

(** X4: as long as the sum does not leave the 64-bit range, the expiration
    [Add] gives the new entry is the task's delay plus less than one
    second. *)
Theorem Add_expiration_within_a_second_of_the_delay tk now t m :
  - 2 ^ 63 <= delayMs tk -> delayMs tk + 1000000000 <= 2 ^ 63 ->
  delayMs tk
    <= expirationMs (getEntry (memOf (Add tk now t m)) (fresh (dom (taskEntries m))))
    < delayMs tk + 1000000000.
Proof.
  intros Hlo Hhi. rewrite Add_expiration.
  pose proof (Nanosecond_range now). rewrite wrap64_small; lia.
Qed.

(** An instance: a delay of 5 ms, submitted 0.9 s into a second. *)
Lemma Add_expiration_within_a_second_of_the_delay_witness :
  5 * ms
    <= expirationMs
         (getEntry (memOf (Add (mkTask (5 * ms) 7) 900000000 (fst timer0) (snd timer0)))
                   (fresh (dom (taskEntries (snd timer0)))))
    < 5 * ms + 1000000000.
Proof.
  apply (Add_expiration_within_a_second_of_the_delay
           (mkTask (5 * ms) 7) 900000000 (fst timer0) (snd timer0));
    cbn; unfold ms; lia.
Defined.

(** X5: within one second of the wall clock, a later submission with an
    equal or larger delay never gets a smaller expiration (sums within the
    64-bit range). *)
Theorem Add_expirations_ordered_within_a_second tk1 tk2 now1 now2 t1 m1 t2 m2 :
  now1 / 1000000000 = now2 / 1000000000 -> now1 <= now2 ->
  delayMs tk1 <= delayMs tk2 ->
  - 2 ^ 63 <= delayMs tk1 -> delayMs tk2 + 1000000000 <= 2 ^ 63 ->
  expirationMs (getEntry (memOf (Add tk1 now1 t1 m1)) (fresh (dom (taskEntries m1))))
    <= expirationMs (getEntry (memOf (Add tk2 now2 t2 m2)) (fresh (dom (taskEntries m2)))).
Proof.
  intros Hsec Hnow Hd Hlo Hhi. rewrite !Add_expiration.
  pose proof (Nanosecond_range now1). pose proof (Nanosecond_range now2).
  rewrite !wrap64_small by lia.
  unfold Nanosecond.
  rewrite (Z.mod_eq now1), (Z.mod_eq now2), Hsec by lia. lia.
Qed.

(** An instance: 5 ms submitted 100 ns and 6 ms submitted 200 ns into the same
    second. *)
Lemma Add_expirations_ordered_within_a_second_witness :
  expirationMs
    (getEntry (memOf (Add (mkTask (5 * ms) 1) 100 (fst timer0) (snd timer0)))
              (fresh (dom (taskEntries (snd timer0)))))
  <= expirationMs
       (getEntry (memOf (Add (mkTask (6 * ms) 2) 200 (fst timer0) (snd timer0)))
                 (fresh (dom (taskEntries (snd timer0))))).
Proof.
  apply (Add_expirations_ordered_within_a_second
           (mkTask (5 * ms) 1) (mkTask (6 * ms) 2) 100 200
           (fst timer0) (snd timer0) (fst timer0) (snd timer0));
    cbn; unfold ms; try lia; reflexivity.
Defined.

Lemma setTimingWheel_same t : setTimingWheel (timingWheel t) t = t.
Proof. now destruct t. Qed.

(** X6: when the expiration computed by [Add] is below the wheel's current
    time plus one tick, [Add] returns normally, leaves the timer, the buckets
    and the delay queue as they were, runs nothing itself and starts exactly
    one goroutine, for the new entry.  This is the case of delays that are
    zero or negative relative to the wheel's clock, and of a delay so large
    that the 64-bit sum wraps to a negative expiration. *)
Theorem Add_starts_a_due_task_at_once tk now t m :
  wrap64 (delayMs tk + Nanosecond now)
    < w_currentTime (timingWheel t) + w_tickMs (timingWheel t) ->
  exists m',
    Add tk now t m = Returned tt t m' /\
    goroutines m' = goroutines m ++ [GoTaskRun (fresh (dom (taskEntries m)))] /\
    task (getEntry m' (fresh (dom (taskEntries m)))) = tk /\
    taskLists m' = taskLists m /\ delayQueue m' = delayQueue m /\
    invoked m' = invoked m.
Proof.
  intros Hdue.
  pose proof (getEntry_NewTaskEntry tk (wrap64 (delayMs tk + Nanosecond now)) m) as HN.
  unfold Add, addTimerTaskEntry, add.
  destruct (NewTaskEntry tk _ m) as [e m0] eqn:EN. cbn [fst snd] in HN.
  assert (e = fresh (dom (taskEntries m))) as He by (now injection EN).
  assert (m0 = setEntries <[e := mkTaskEntry tk (wrap64 (delayMs tk + Nanosecond now)) false None]> m) as Hm0.
  { injection EN as <- <-. reflexivity. }
  assert (cancelled m0 e = false) as Hc by (unfold cancelled; now rewrite HN).
  assert (add_levels maxLevels (timingWheel t) e m0 = Some (false, timingWheel t, m0)) as HA.
  { unfold maxLevels. cbn [add_levels]. rewrite Hc, HN. cbn [expirationMs].
    apply Z.ltb_lt in Hdue. now rewrite Hdue. }
  rewrite HA, Hc. cbn [negb]. rewrite setTimingWheel_same.
  exists (go (GoTaskRun e) m0). split; [reflexivity|]. rewrite <- He.
  assert (getEntry (go (GoTaskRun e) m0) e = getEntry m0 e) as -> by reflexivity.
  rewrite HN, Hm0. repeat split.
Qed.

(** An instance: the largest 64-bit delay, submitted 1 ns into a second,
    wraps to the smallest 64-bit expiration and is started at once. *)
Lemma Add_starts_a_due_task_at_once_witness :
  exists m',
    Add (mkTask (2 ^ 63 - 1) 7) 1 (fst timer0) (snd timer0)
      = Returned tt (fst timer0) m' /\
    goroutines m'
      = goroutines (snd timer0) ++ [GoTaskRun (fresh (dom (taskEntries (snd timer0))))] /\
    task (getEntry m' (fresh (dom (taskEntries (snd timer0))))) = mkTask (2 ^ 63 - 1) 7 /\
    taskLists m' = taskLists (snd timer0) /\
    delayQueue m' = delayQueue (snd timer0) /\
    invoked m' = invoked (snd timer0).
Proof.
  apply (Add_starts_a_due_task_at_once (mkTask (2 ^ 63 - 1) 7) 1
           (fst timer0) (snd timer0)).
  vm_compute. reflexivity.
Defined.

(** ** How [AdvanceClock] ends and what it takes from the queue *)

Lemma Pop_nil_context ctx m m' :
  Pop ctx m = Some (None, m') -> exists d, doneAt ctx = Some d /\ d <= clock m'.
Proof.
  unfold Pop. intros H.
  destruct (delayQueue m) as [|[k x] q].
  - destruct (doneAt ctx) as [d|]; [|discriminate].
    injection H as <-. exists d. cbn. split; [reflexivity|lia].
  - destruct (k <=? clock m); [discriminate|].
    destruct (doneAt ctx) as [d|]; [|discriminate].
    destruct (k <=? d); [discriminate|].
    injection H as <-. exists d. cbn. split; [reflexivity|lia].
Qed.

Lemma Pop_blocks_context ctx m :
  Pop ctx m = None -> doneAt ctx = None /\ delayQueue m = [].
Proof.
  unfold Pop. intros H.
  destruct (delayQueue m) as [|[k x] q].
  - now destruct (doneAt ctx).
  - destruct (k <=? clock m); [discriminate|].
    destruct (doneAt ctx) as [d|]; [|discriminate].
    destruct (k <=? d); discriminate.
Qed.

Lemma Drains_ends_with_the_context ctx v t m o :
  Drains ctx v t m o ->
  match o with
  | Returned _ _ m' => exists d, doneAt ctx = Some d /\ d <= clock m'
  | Blocked _ m' => doneAt ctx = None /\ delayQueue m' = []
  | Panicked _ _ _ => True
  end.
Proof.
  induction 1; auto.
  - now apply Pop_nil_context in H.
  - now apply Pop_blocks_context in H.
Qed.

(** X7: [AdvanceClock] returns, with [true] or [false], no earlier than its
    context fires, since every poll of the call waits for the context; it
    hangs only when the context never fires, and then with nothing left in
    the delay queue. *)
Theorem AdvanceClock_returns_when_the_context_fires ctx t m :
  match AdvanceClock ctx t m with
  | Returned _ _ m' => exists d, doneAt ctx = Some d /\ d <= clock m'
  | Blocked _ m' => doneAt ctx = None /\ delayQueue m' = []
  | Panicked _ _ _ => True
  end.
Proof.
  destruct (Pop ctx m) as [[[[v|d]|] m1]|] eqn:HP.
  - pose proof (AdvanceClock_bucket ctx t m v m1 HP) as HL.
    apply AdvanceClock_loop_Drains in HL.
    now apply Drains_ends_with_the_context in HL.
  - unfold AdvanceClock. now rewrite HP.
  - unfold AdvanceClock. rewrite HP. now apply Pop_nil_context in HP.
  - unfold AdvanceClock. rewrite HP. now apply Pop_blocks_context in HP.
Qed.

Lemma AdvanceClock_loop_dequeues (fuel : nat) ctx v t m o :
  AdvanceClock_loop fuel ctx v t m = Some o ->
  exists popped rest,
    delayQueue m = popped ++ delayQueue (memOf o) /\
    polled (memOf o) = polled m ++ map (fun p => Some (snd p)) popped ++ rest /\
    (rest = [] \/ rest = [None]).
Proof.
  revert v t m. induction fuel as [|fuel IH]; intros v t m H; cbn in H;
    destruct (flush_flushVisitor v m) as (Hq & _ & _ & Hp & _);
    destruct (Pop ctx (flush v flushVisitor m)) as [[[[l|d]|] m2]|] eqn:HP;
    try discriminate.
  all: try (apply Pop_frame in HP; destruct HP as [_ _ _ _ HPp _ HPq];
            rewrite Hp in HPp; rewrite Hq in HPq).
  all: try (injection H as <-; cbn [memOf]).
  - destruct HPq as [k Hk]. exists [(k, DOther d)], []. rewrite Hk, HPp. cbn. auto.
  - exists [], [None]. rewrite HPq, HPp. cbn. auto.
  - exists [], []. rewrite Hq, Hp. cbn. rewrite app_nil_r. auto.
  - destruct (IH _ _ _ H) as (popped & rest & Hpq & Hpp & Hrest).
    destruct HPq as [k Hk].
    exists ((k, DTaskList l) :: popped), rest. rewrite Hk, Hpq, Hpp, HPp. cbn.
    rewrite <- app_assoc. cbn. auto.
  - destruct HPq as [k Hk]. exists [(k, DOther d)], []. rewrite Hk, HPp. cbn. auto.
  - exists [], [None]. rewrite HPq, HPp. cbn. auto.
  - exists [], []. rewrite Hq, Hp. cbn. rewrite app_nil_r. auto.
Qed.

(** X8: [AdvanceClock] only takes elements from the head of the delay queue
    and puts none back: the queue it leaves is a suffix of the queue it
    found, its polls yielded exactly the elements taken, in order, followed
    by at most one nil; so it polls at most once more than the queue is
    long. *)
Theorem AdvanceClock_only_dequeues ctx t m :
  exists popped rest,
    delayQueue m = popped ++ delayQueue (memOf (AdvanceClock ctx t m)) /\
    polled (memOf (AdvanceClock ctx t m))
      = polled m ++ map (fun p => Some (snd p)) popped ++ rest /\
    (rest = [] \/ rest = [None]).
Proof.
  destruct (Pop ctx m) as [[[[v|d]|] m1]|] eqn:HP.
  - pose proof (AdvanceClock_bucket ctx t m v m1 HP) as HL.
    destruct (AdvanceClock_loop_dequeues _ _ _ _ _ _ HL) as (popped & rest & Hq & Hp & Hr).
    apply Pop_frame in HP. destruct HP as [_ _ _ _ HPp _ [k Hk]].
    exists ((k, DTaskList v) :: popped), rest. rewrite Hk, Hq, Hp, HPp. cbn.
    rewrite <- app_assoc. cbn. auto.
  - unfold AdvanceClock. rewrite HP. cbn.
    apply Pop_frame in HP. destruct HP as [_ _ _ _ HPp _ [k Hk]].
    exists [(k, DOther d)], []. rewrite Hk, HPp. cbn. auto.
  - unfold AdvanceClock. rewrite HP. cbn.
    apply Pop_frame in HP. destruct HP as [_ _ _ _ HPp _ HPq].
    exists [], [None]. rewrite HPq, HPp. cbn. auto.
  - unfold AdvanceClock. rewrite HP. cbn.
    exists [], []. cbn. rewrite app_nil_r. auto.
Qed.

(** ** The queue holds buckets; the configuration is kept *)

Lemma insertKeyed_onlyBuckets k l q :
  Forall isBucket q -> Forall isBucket (insertKeyed k (DTaskList l) q).
Proof.
  induction q as [|[k' x'] q IH]; intros H; cbn.
  - repeat constructor.
  - destruct (k <? k').
    + constructor; [exact I|exact H].
    + inversion H; subst. constructor; auto.
Qed.

Lemma newTaskLists_delayQueue n m :
  delayQueue (snd (newTaskLists n m)) = delayQueue m.
Proof.
  revert m. induction n as [|n IH]; intros m; cbn; [reflexivity|].
  specialize (IH (setLists <[fresh (dom (taskLists m)) := emptyTaskList]> m)).
  destruct (newTaskLists n _) as [ls m']. exact IH.
Qed.

Lemma NewTimingWheel_delayQueue tick size start m :
  delayQueue (snd (NewTimingWheel tick size start m)) = delayQueue m.
Proof.
  unfold NewTimingWheel. pose proof (newTaskLists_delayQueue (Z.to_nat size) m) as H.
  now destruct (newTaskLists _ m).
Qed.

Lemma add_levels_onlyBuckets (fuel : nat) w e m ok w' m' :
  onlyBuckets m -> add_levels fuel w e m = Some (ok, w', m') -> onlyBuckets m'.
Proof.
  revert w m ok w' m'. induction fuel as [|fuel IH]; intros w m ok w' m' Hq H;
    cbn in H;
    destruct (cancelled m e); simplify_eq; auto;
    destruct (_ <? w_currentTime w + w_tickMs w); simplify_eq; auto;
    destruct (_ <? w_currentTime w + w_interval w).
  1,3: destruct (w_buckets w !! _) as [b|]; [|discriminate];
       injection H as <- <- <-;
       destruct (negb _); [apply insertKeyed_onlyBuckets|]; exact Hq.
  - discriminate.
  - destruct (w_overflowWheel w) as [o|].
    + destruct (add_levels fuel o e m) as [[[ok1 o1] m2]|] eqn:E; [|discriminate].
      injection H as <- <- <-. eauto.
    + pose proof (NewTimingWheel_delayQueue (w_interval w) (w_wheelSize w)
                    (w_currentTime w) m) as HN.
      destruct (NewTimingWheel _ _ _ m) as [o m1]. cbn [snd] in HN.
      destruct (add_levels fuel o e m1) as [[[ok1 o1] m2]|] eqn:E; [|discriminate].
      injection H as <- <- <-. eapply IH; [|exact E].
      unfold onlyBuckets. now rewrite HN.
Qed.

Lemma Add_onlyBuckets tk now t m :
  onlyBuckets m -> onlyBuckets (memOf (Add tk now t m)).
Proof.
  intros Hq. unfold Add, NewTaskEntry, addTimerTaskEntry.
  set (e := fresh (dom (taskEntries m))). set (m0 := setEntries _ m).
  assert (onlyBuckets m0) as Hq0 by exact Hq.
  destruct (add (timingWheel t) e m0) as [[[[|] w] m1]|] eqn:HA; cbn [memOf].
  - eapply add_levels_onlyBuckets; eauto.
  - apply (add_levels_onlyBuckets _ _ _ _ _ _ _ Hq0) in HA.
    now destruct (negb _).
  - exact Hq0.
Qed.

Lemma AdvanceClock_loop_onlyBuckets (fuel : nat) ctx v t m o :
  onlyBuckets m -> AdvanceClock_loop fuel ctx v t m = Some o ->
  panics o = false /\ onlyBuckets (memOf o).
Proof.
  unfold onlyBuckets.
  revert v t m. induction fuel as [|fuel IH]; intros v t m Hq H; cbn in H;
    destruct (flush_flushVisitor v m) as (Hfq & _);
    destruct (Pop ctx (flush v flushVisitor m)) as [[[[l|d]|] m2]|] eqn:HP;
    try discriminate.
  all: try (apply Pop_frame in HP; destruct HP as [_ _ _ _ _ _ HPq];
            rewrite Hfq in HPq).
  all: try (injection H as <-; cbn [memOf panics]).
  - destruct HPq as [k Hk]. rewrite Hk in Hq. inversion Hq as [|? ? Hb]. destruct Hb.
  - rewrite HPq. auto.
  - rewrite Hfq. auto.
  - destruct HPq as [k Hk]. rewrite Hk in Hq. inversion Hq; subst.
    eapply IH; eauto.
  - destruct HPq as [k Hk]. rewrite Hk in Hq. inversion Hq as [|? ? Hb]. destruct Hb.
  - rewrite HPq. auto.
  - rewrite Hfq. auto.
Qed.

Lemma AdvanceClock_onlyBuckets ctx t m :
  onlyBuckets m ->
  panics (AdvanceClock ctx t m) = false /\ onlyBuckets (memOf (AdvanceClock ctx t m)).
Proof.
  intros Hq. destruct (Pop ctx m) as [[[[v|d]|] m1]|] eqn:HP.
  - pose proof (AdvanceClock_bucket ctx t m v m1 HP) as HL.
    apply (AdvanceClock_loop_onlyBuckets _ _ _ _ _ _) in HL; [exact HL|].
    apply Pop_frame in HP. destruct HP as [_ _ _ _ _ _ [k Hk]].
    unfold onlyBuckets in *. rewrite Hk in Hq. now inversion Hq.
  - apply Pop_frame in HP. destruct HP as [_ _ _ _ _ _ [k Hk]].
    unfold onlyBuckets in Hq. rewrite Hk in Hq. inversion Hq as [|? ? Hb]. destruct Hb.
  - unfold AdvanceClock. rewrite HP. cbn.
    apply Pop_frame in HP. destruct HP as [_ _ _ _ _ _ HPq].
    unfold onlyBuckets. rewrite HPq. auto.
  - unfold AdvanceClock. rewrite HP. cbn. auto.
Qed.

Lemma runGoroutine_delayQueue i m : delayQueue (runGoroutine i m) = delayQueue m.
Proof.
  unfold runGoroutine. destruct (goroutines m !! i) as [[e]|]; reflexivity.
Qed.

Lemma steps_onlyBuckets ops s :
  onlyBuckets (snd s) -> onlyBuckets (snd (steps ops s)).
Proof.
  revert s. induction ops as [|op ops IH]; intros [t m] Hq; [exact Hq|].
  cbn. apply IH. destruct op; unfold step; cbn [fst snd]; try exact Hq.
  - now apply Add_onlyBuckets.
  - now apply AdvanceClock_onlyBuckets.
  - unfold onlyBuckets. now rewrite runGoroutine_delayQueue.
Qed.

Lemma NewSystemTimer_delayQueue tick size now :
  delayQueue (snd (NewSystemTimer tick size now)) = [].
Proof.
  unfold NewSystemTimer.
  pose proof (NewTimingWheel_delayQueue tick size (Nanosecond now) emptyMem) as H.
  now destruct (NewTimingWheel _ _ _ _).
Qed.

(** X9: through [NewSystemTimer], [Add], [cancel], [AdvanceClock], [Shutdown]
    and goroutine runs the delay queue only ever holds buckets, so after any
    such history [AdvanceClock] does not panic. *)
Theorem AdvanceClock_never_panics_after_any_history tick size now ops ctx :
  panics (AdvanceClock ctx (fst (steps ops (NewSystemTimer tick size now)))
                           (snd (steps ops (NewSystemTimer tick size now))))
    = false.
Proof.
  apply AdvanceClock_onlyBuckets, steps_onlyBuckets.
  unfold onlyBuckets. rewrite NewSystemTimer_delayQueue. constructor.
Qed.

Lemma SameShape_refl w : SameShape w w.
Proof. now split. Qed.

Lemma SameShape_trans w1 w2 w3 : SameShape w1 w2 -> SameShape w2 w3 -> SameShape w1 w3.
Proof. intros [] []. split; congruence. Qed.

Lemma add_levels_SameShape (fuel : nat) w e m ok w' m' :
  add_levels fuel w e m = Some (ok, w', m') -> SameShape w w'.
Proof.
  destruct fuel as [|fuel]; intros H; cbn in H;
    destruct (cancelled m e); simplify_eq; try apply SameShape_refl;
    destruct (_ <? w_currentTime w + w_tickMs w); simplify_eq;
      try apply SameShape_refl;
    destruct (_ <? w_currentTime w + w_interval w).
  1,3: destruct (w_buckets w !! _) as [b|]; [|discriminate];
       injection H as <- <- <-; apply SameShape_refl.
  - discriminate.
  - destruct (match w_overflowWheel w with Some o => _ | None => _ end) as [o m1].
    destruct (add_levels fuel o e m1) as [[[ok1 o1] m2]|]; [|discriminate].
    injection H as <- <- <-. now split.
Qed.

Lemma advanceClock_SameShape w t : SameShape w (advanceClock w t).
Proof.
  destruct w as [tick size iv ct bs ov]. cbn.
  destruct (ct + tick <=? t); now split.
Qed.

Lemma SameConfig_refl t : SameConfig t t.
Proof. split; auto using SameShape_refl. Qed.

Lemma SameConfig_trans t1 t2 t3 : SameConfig t1 t2 -> SameConfig t2 t3 -> SameConfig t1 t3.
Proof.
  intros [] []. split; try congruence. eauto using SameShape_trans.
Qed.

Lemma SameConfig_setTimingWheel w t :
  SameShape (timingWheel t) w -> SameConfig t (setTimingWheel w t).
Proof. now split. Qed.

Lemma Add_SameConfig tk now t m : SameConfig t (timerOf (Add tk now t m)).
Proof.
  unfold Add, NewTaskEntry, addTimerTaskEntry.
  destruct (add _ _ _) as [[[[|] w] m1]|] eqn:HA; cbn [timerOf].
  - apply SameConfig_setTimingWheel. now apply add_levels_SameShape in HA.
  - apply add_levels_SameShape in HA.
    destruct (negb _); cbn [timerOf]; now apply SameConfig_setTimingWheel.
  - apply SameConfig_refl.
Qed.

Lemma AdvanceClock_loop_SameConfig (fuel : nat) ctx v t m o :
  AdvanceClock_loop fuel ctx v t m = Some o -> SameConfig t (timerOf o).
Proof.
  revert v t m. induction fuel as [|fuel IH]; intros v t m H; cbn in H;
    destruct (Pop ctx (flush v flushVisitor m)) as [[[[l|d]|] m2]|];
    simplify_eq; cbn [timerOf];
    try (apply SameConfig_setTimingWheel, advanceClock_SameShape).
  eapply SameConfig_trans; [|eapply IH; exact H].
  apply SameConfig_setTimingWheel, advanceClock_SameShape.
Qed.

Lemma AdvanceClock_SameConfig ctx t m : SameConfig t (timerOf (AdvanceClock ctx t m)).
Proof.
  destruct (Pop ctx m) as [[[[v|d]|] m1]|] eqn:HP.
  - pose proof (AdvanceClock_bucket ctx t m v m1 HP) as HL.
    now apply AdvanceClock_loop_SameConfig in HL.
  - unfold AdvanceClock. rewrite HP. apply SameConfig_refl.
  - unfold AdvanceClock. rewrite HP. apply SameConfig_refl.
  - unfold AdvanceClock. rewrite HP. apply SameConfig_refl.
Qed.

Lemma steps_SameConfig ops s : SameConfig (fst s) (fst (steps ops s)).
Proof.
  revert s. induction ops as [|op ops IH]; intros [t m]; [apply SameConfig_refl|].
  cbn. eapply SameConfig_trans; [|apply IH].
  destruct op; unfold step; cbn [fst snd]; try apply SameConfig_refl.
  - apply Add_SameConfig.
  - apply AdvanceClock_SameConfig.
Qed.

(** X10: after any history the timer has the tick and slot count it was
    made with and the start time [NewSystemTimer] read (an offset within the
    second), and its root wheel still has that tick, that slot count, their
    product as window and the bucket array allocated at construction. *)
Theorem timer_keeps_its_configuration tick size now ops :
  let t := fst (steps ops (NewSystemTimer tick size now)) in
  tickMs t = tick /\ wheelSize t = size /\
  startMs t = now mod 1000000000 /\ 0 <= startMs t < 1000000000 /\
  w_tickMs (timingWheel t) = tick /\ w_wheelSize (timingWheel t) = size /\
  w_interval (timingWheel t) = tick * size /\
  w_buckets (timingWheel t) = w_buckets (timingWheel (fst (NewSystemTimer tick size now))) /\
  length (w_buckets (timingWheel t)) = Z.to_nat size.
Proof.
  cbn zeta.
  destruct (steps_SameConfig ops (NewSystemTimer tick size now)) as [H1 H2 H3 [H4 H5 H6 H7]].
  rewrite H1, H2, H3, H4, H5, H6, H7.
  unfold NewSystemTimer, NewTimingWheel.
  pose proof (newTaskLists_length (Z.to_nat size) emptyMem) as HL.
  destruct (newTaskLists _ emptyMem) as [bs m']. cbn in *.
  pose proof (Z.mod_pos_bound now 1000000000). unfold Nanosecond.
  repeat split; auto; lia.
Qed.

(** ** A task on a new timer *)

Lemma AllEmpty_newTaskLists n m :
  AllEmpty m -> AllEmpty (snd (newTaskLists n m)).
Proof.
  revert m. induction n as [|n IH]; intros m H; [exact H|].
  cbn [newTaskLists].
  match goal with
  | |- context [setLists (insert ?x emptyTaskList) m] => generalize x
  end. intros f.
  specialize (IH (setLists <[f := emptyTaskList]> m)).
  destruct (newTaskLists n _) as [ls m']. cbn [snd] in *. apply IH.
  intros l. unfold getList, setLists. cbn [taskLists].
  destruct (decide (f = l)) as [->|Hne].
  - now rewrite lookup_insert_eq.
  - rewrite lookup_insert_ne by exact Hne. apply H.
Qed.

Lemma AllEmpty_NewTimingWheel tick size start m :
  AllEmpty m -> AllEmpty (snd (NewTimingWheel tick size start m)).
Proof.
  intros H. unfold NewTimingWheel.
  pose proof (AllEmpty_newTaskLists (Z.to_nat size) m H) as HN.
  now destruct (newTaskLists _ m).
Qed.

Lemma getList_insert l tl m : getList (setLists <[l := tl]> m) l = tl.
Proof. unfold getList, setLists. cbn [taskLists]. now rewrite lookup_insert_eq. Qed.

Lemma getList_setList e x m l : getList (setList e x m) l = getList m l.
Proof. reflexivity. Qed.

Lemma accept_on_empty b e E m :
  getList m b = emptyTaskList -> delayQueue m = [] -> E <> -1 ->
  let m3 := if fst (setExpiration b E (TaskList_add b e m))
            then offer b (snd (setExpiration b E (TaskList_add b e m)))
            else snd (setExpiration b E (TaskList_add b e m)) in
  delayQueue m3 = [(E, DTaskList b)] /\ entries (getList m3 b) = [e].
Proof.
  intros Hb Hq HE. cbn zeta.
  unfold setExpiration. cbn [fst snd].
  assert (getList (TaskList_add b e m) b = mkTaskList (-1) [e]) as Hg.
  { unfold TaskList_add. rewrite getList_setList, getList_insert, Hb. reflexivity. }
  rewrite Hg. cbn [expiration entries].
  destruct (-1 =? E) eqn:E1; [apply Z.eqb_eq in E1; lia|]. cbn [negb].
  unfold offer, GetDelay. rewrite getList_insert. cbn [expiration].
  split.
  - unfold setDelayQueue, setLists, TaskList_add, setList, setEntries, setLists.
    cbn [delayQueue]. rewrite Hq. reflexivity.
  - change (getList (setDelayQueue ?q ?m) b) with (getList m b).
    now rewrite getList_insert.
Qed.

(** The wheel's [add] on a memory where nothing is queued and every bucket
    is empty and unarmed. *)
Lemma add_levels_first (fuel : nat) w e m ok w' m' :
  WheelOk w -> AllEmpty m -> delayQueue m = [] ->
  add_levels fuel w e m = Some (ok, w', m') ->
  if ok then
    exists b E, delayQueue m' = [(E, DTaskList b)] /\
                entries (getList m' b) = [e] /\
                E <= expirationMs (getEntry m e)
  else delayQueue m' = [].
Proof.
  revert w m ok w' m'. induction fuel as [|fuel IH];
    intros w m ok w' m' Hok Hempty Hq H;
    destruct w as [tick size iv ct bs ov]; cbn in Hok;
    cbn [add_levels w_tickMs w_wheelSize w_interval w_currentTime w_buckets
         w_overflowWheel] in H;
    (destruct (cancelled m e); [now injection H as <- <- <-|]);
    (destruct (_ <? ct + tick) eqn:Edue; [now injection H as <- <- <-|]);
    apply Z.ltb_ge in Edue;
    destruct Hok as (Ht & Hs & Hi & Hc & Hb & Hov);
    destruct (_ <? ct + iv).
  1,3: destruct (bs !! _) as [b|]; [|discriminate];
       set (x := expirationMs (getEntry m e)) in *;
       assert (1 <= x / tick) by (apply Z.div_le_lower_bound; lia);
       pose proof (Z.mul_div_le x tick Ht);
       pose proof (accept_on_empty b e (x / tick * tick) m (Hempty b) Hq
                     ltac:(nia)) as HA;
       cbn zeta in HA;
       destruct (setExpiration b (x / tick * tick) (TaskList_add b e m))
         as [changed m2];
       cbn [fst snd] in HA; injection H as <- <- <-;
       exists b, (x / tick * tick); destruct HA; repeat split; auto; nia.
  - discriminate.
  - assert (0 < iv) by nia.
    destruct ov as [o|].
    + destruct Hov as (Hto & Hso & Hoko).
      destruct (add_levels fuel o e m) as [[[ok1 o1] m2]|] eqn:E; [|discriminate].
      injection H as <- <- <-. eapply IH; eauto.
    + pose proof (NewTimingWheel_WheelOk iv size ct m ltac:(lia) Hs Hc) as HW.
      pose proof (AllEmpty_NewTimingWheel iv size ct m Hempty) as HE.
      pose proof (NewTimingWheel_delayQueue iv size ct m) as HQ.
      pose proof (AddFrame_NewTimingWheel iv size ct m) as HF.
      destruct (NewTimingWheel iv size ct m) as [o m1]. cbn [fst snd] in *.
      destruct (add_levels fuel o e m1) as [[[ok1 o1] m2]|] eqn:E; [|discriminate].
      injection H as <- <- <-.
      rewrite <- (af_expiration _ _ HF). eapply IH; eauto. congruence.
Qed.

Lemma foldl_setList_task (es : list EntryRef) (m : Mem) e :
  task (getEntry (foldl (fun acc x => setList x None acc) m es) e)
    = task (getEntry m e).
Proof.
  revert m. induction es as [|x es IH]; intros m; cbn; [reflexivity|].
  rewrite IH. apply (af_task _ _ (AddFrame_setList x None m)).
Qed.

Lemma flush_flushVisitor_task v m e :
  task (getEntry (flush v flushVisitor m) e) = task (getEntry m e).
Proof.
  unfold flush. cbn zeta.
  set (es := entries (getList m v)). set (m1 := setLists _ m).
  destruct (foldl_flushVisitor_frame es (foldl (fun acc x => setList x None acc) m1 es))
    as (_ & HE & _).
  unfold getEntry at 1. rewrite HE. fold (getEntry (foldl (fun acc x => setList x None acc) m1 es) e).
  now rewrite foldl_setList_task.
Qed.

Lemma Pop_single d E x m :
  delayQueue m = [(E, x)] -> E <= d ->
  exists c, Pop (until d) m = Some (Some x, afterPop [] c (Some x) m).
Proof.
  intros Hq HE. unfold Pop. rewrite Hq. cbn [until doneAt].
  destruct (E <=? clock m); [eauto|].
  apply Z.leb_le in HE. rewrite HE. eauto.
Qed.

Lemma Pop_empty d m :
  delayQueue m = [] ->
  Pop (until d) m = Some (None, afterPop [] (Z.max (clock m) d) None m).
Proof. intros Hq. unfold Pop. now rewrite Hq. Qed.

Lemma NewSystemTimer_fresh tick size now :
  let m := snd (NewSystemTimer tick size now) in
  AllEmpty m /\ delayQueue m = [] /\ goroutines m = [] /\ invoked m = [].
Proof.
  cbn zeta. unfold NewSystemTimer.
  pose proof (AllEmpty_NewTimingWheel tick size (Nanosecond now) emptyMem
                ltac:(intros l; reflexivity)) as HE.
  pose proof (NewTimingWheel_delayQueue tick size (Nanosecond now) emptyMem) as HQ.
  pose proof (AddFrame_NewTimingWheel tick size (Nanosecond now) emptyMem) as HF.
  destruct (NewTimingWheel _ _ _ _) as [w m]. cbn [snd] in *.
  destruct HF as [Hg Hi _ _ _ _ _]. auto.
Qed.

Lemma Add_unfold tk now t m :
  Add tk now t m
  = addTimerTaskEntry (fresh (dom (taskEntries m))) t
      (setEntries <[fresh (dom (taskEntries m))
                    := mkTaskEntry tk (wrap64 (delayMs tk + Nanosecond now)) false None]> m).
Proof. reflexivity. Qed.

Lemma runGoroutine_first e gs m :
  goroutines m = GoTaskRun e :: gs ->
  invoked (runGoroutine 0 m) = invoked m ++ [action (task (getEntry m e))].
Proof. intros H. exact (runGoroutine_started [] e gs m H). Qed.

Lemma first_entry_is_started_once t0 m1 e tk x d :
  WheelOk (timingWheel t0) -> AllEmpty m1 -> delayQueue m1 = [] ->
  goroutines m1 = [] -> invoked m1 = [] ->
  getEntry m1 e = mkTaskEntry tk x false None ->
  x < 2 ^ 63 -> x <= d ->
  let o1 := addTimerTaskEntry e t0 m1 in
  let o2 := AdvanceClock (until d) (timerOf o1) (memOf o1) in
  (exists b, o2 = Returned b (timerOf o2) (memOf o2)) /\
  goroutines (memOf o2) = [GoTaskRun e] /\
  invoked (memOf o2) = [] /\
  invoked (runAll (memOf o2)) = [action tk].
Proof.
  intros Hok Hempty1 Hq1 Hg Hi HN Hx Hd. cbn zeta.
  unfold addTimerTaskEntry.
  destruct (add_returns (timingWheel t0) e m1 Hok) as [[[ok w] m2] HA].
  { now rewrite HN. }
  rewrite HA.
  pose proof (add_levels_frame _ _ _ _ _ _ _ HA) as [Fg Fi _ _ Ft _ Fc].
  pose proof (add_levels_first _ _ _ _ _ _ _ Hok Hempty1 Hq1 HA) as HF.
  assert (cancelled m2 e = false) as Hc.
  { rewrite Fc. unfold cancelled. now rewrite HN. }
  assert (task (getEntry m2 e) = tk) as Htk by (now rewrite Ft, HN).
  destruct ok.
  - destruct HF as (b & E & HQ2 & HE2 & HEx). rewrite HN in HEx. cbn in HEx.
    cbn [timerOf memOf].
    destruct (Pop_single d E (DTaskList b) m2 HQ2 ltac:(lia)) as [c HP].
    pose proof (AdvanceClock_bucket _ (setTimingWheel w t0) _ _ _ HP) as HL.
    cbn [afterPop delayQueue length AdvanceClock_loop] in HL.
    set (m3 := afterPop [] c (Some (DTaskList b)) m2) in *.
    destruct (flush_flushVisitor b m3) as (Fq & Fgo & Fin & _).
    rewrite (Pop_empty d (flush b flushVisitor m3)) in HL by (now rewrite Fq).
    injection HL as <-. cbn [timerOf memOf afterPop goroutines invoked].
    assert (goroutines (flush b flushVisitor m3) = [GoTaskRun e]) as Hgo.
    { rewrite Fgo. subst m3. cbn [afterPop goroutines]. rewrite Fg, Hg.
      change (getList (afterPop [] c (Some (DTaskList b)) m2) b) with (getList m2 b).
      now rewrite HE2. }
    split; [eauto|]. split; [exact Hgo|]. split.
    + rewrite Fin. subst m3. cbn. rewrite Fi. exact Hi.
    + unfold runAll. cbn [afterPop goroutines]. rewrite Hgo. cbn [foldl].
      match goal with
      | |- invoked (runGoroutine _ ?m) = _ =>
          pose proof (runGoroutine_first e [] m Hgo) as Hrun
      end.
      rewrite Hrun.
      cbn [afterPop invoked]. rewrite Fin. subst m3. cbn [afterPop invoked].
      rewrite Fi, Hi. cbn.
      do 2 f_equal.
      change (getEntry (afterPop ?q ?c' ?r ?m) e) with (getEntry m e).
      rewrite flush_flushVisitor_task.
      change (getEntry (afterPop ?q ?c' ?r ?m) e) with (getEntry m e).
      exact Htk.
  - rewrite Hc. cbn [negb timerOf memOf].
    unfold AdvanceClock.
    rewrite (Pop_empty d (go (GoTaskRun e) m2)) by exact HF.
    cbn [timerOf memOf].
    set (m4 := afterPop _ _ _ _).
    assert (goroutines m4 = [GoTaskRun e]) as Hgo by (cbn; now rewrite Fg, Hg).
    assert (invoked m4 = []) as Hin by (cbn; now rewrite Fi, Hi).
    split; [eauto|]. split; [exact Hgo|]. split; [exact Hin|].
    unfold runAll. rewrite Hgo. cbn [foldl].
    rewrite (runGoroutine_first e [] m4 Hgo), Hin.
    change (getEntry m4 e) with (getEntry m2 e). now rewrite Htk.
Qed.

(** X11: a task submitted to a new timer is started exactly once, by the
    [Add] itself or by an [AdvanceClock] whose context fires no earlier than
    the task's expiration, whatever its delay; run, the goroutine invokes the
    task's action, once. *)
Theorem task_on_a_new_timer_is_started_once tick size now tk now' d :
  0 < tick -> 2 <= size ->
  wrap64 (delayMs tk + Nanosecond now') <= d ->
  let s0 := NewSystemTimer tick size now in
  let e := fresh (dom (taskEntries (snd s0))) in
  let o1 := Add tk now' (fst s0) (snd s0) in
  let o2 := AdvanceClock (until d) (timerOf o1) (memOf o1) in
  (exists b, o2 = Returned b (timerOf o2) (memOf o2)) /\
  goroutines (memOf o2) = [GoTaskRun e] /\
  invoked (memOf o2) = [] /\
  invoked (runAll (memOf o2)) = [action tk].
Proof.
  intros Ht Hs Hd. cbn zeta.
  pose proof (NewSystemTimer_WheelOk tick size now Ht Hs) as Hok.
  destruct (NewSystemTimer_fresh tick size now) as (Hempty & Hq & Hg & Hi).
  destruct (NewSystemTimer tick size now) as [t0 m0]. cbn [fst snd] in *.
  rewrite Add_unfold.
  apply (first_entry_is_started_once t0 _ _ tk
           (wrap64 (delayMs tk + Nanosecond now')) d); auto.
  - apply (getEntry_NewTaskEntry tk (wrap64 (delayMs tk + Nanosecond now')) m0).
  - apply wrap64_range.
Qed.

(** An instance: a delay of 25 ms, beyond the window, and a context that fires
    at 30 ms: the goroutine is started and, run, invokes the action. *)
Lemma task_on_a_new_timer_is_started_once_witness :
  goroutines
    (memOf (AdvanceClock (until (30 * ms))
       (timerOf (Add (mkTask (25 * ms) 8) 0 (fst (NewSystemTimer ms 20 0))
                     (snd (NewSystemTimer ms 20 0))))
       (memOf (Add (mkTask (25 * ms) 8) 0 (fst (NewSystemTimer ms 20 0))
                   (snd (NewSystemTimer ms 20 0))))))
    = [GoTaskRun (fresh (dom (taskEntries (snd (NewSystemTimer ms 20 0)))))] /\
  invoked
    (runAll
       (memOf (AdvanceClock (until (30 * ms))
          (timerOf (Add (mkTask (25 * ms) 8) 0 (fst (NewSystemTimer ms 20 0))
                        (snd (NewSystemTimer ms 20 0))))
          (memOf (Add (mkTask (25 * ms) 8) 0 (fst (NewSystemTimer ms 20 0))
                      (snd (NewSystemTimer ms 20 0)))))))
    = [8%nat].
Proof.
  pose proof (task_on_a_new_timer_is_started_once ms 20 0 (mkTask (25 * ms) 8) 0
                (30 * ms) ltac:(unfold ms; lia) ltac:(lia)
                ltac:(vm_compute; discriminate)) as H.
  cbn zeta in H. split; apply H.
Defined.

(** ** No entry is started twice *)

Lemma NoRestart_ext m m' log :
  (forall l, entries (getList m' l) = entries (getList m l)) ->
  dom (taskEntries m) ⊆ dom (taskEntries m') ->
  NoRestart m log -> NoRestart m' log.
Proof.
  intros Hl Hd [H1 H2 H3 H4 H5 H6].
  split; intros; rewrite ?Hl in *; eauto.
Qed.

Lemma getList_insert_ne b tl m l :
  l <> b -> getList (setLists <[b := tl]> m) l = getList m l.
Proof.
  intros Hne. unfold getList, setLists. cbn [taskLists].
  now rewrite lookup_insert_ne by congruence.
Qed.

Lemma newTaskLists_getList n m l :
  getList (snd (newTaskLists n m)) l = getList m l.
Proof.
  revert m. induction n as [|n IH]; intros m; [reflexivity|].
  cbn [newTaskLists].
  match goal with
  | |- context [setLists (insert ?x emptyTaskList) m] =>
      assert (taskLists m !! x = None) as Hf
        by (apply not_elem_of_dom; apply (is_fresh (dom (taskLists m))));
      generalize dependent x
  end.
  intros f Hf. specialize (IH (setLists <[f := emptyTaskList]> m)).
  destruct (newTaskLists n _) as [ls m']. cbn [snd] in *. rewrite IH.
  destruct (decide (l = f)) as [->|Hne].
  - rewrite getList_insert. unfold getList. now rewrite Hf.
  - now apply getList_insert_ne.
Qed.

Lemma newTaskLists_taskEntries n m :
  taskEntries (snd (newTaskLists n m)) = taskEntries m.
Proof.
  revert m. induction n as [|n IH]; intros m; [reflexivity|].
  cbn [newTaskLists].
  match goal with
  | |- context [setLists (insert ?x emptyTaskList) m] => generalize x
  end.
  intros f. specialize (IH (setLists <[f := emptyTaskList]> m)).
  now destruct (newTaskLists n _) as [ls m'].
Qed.

Lemma NewTimingWheel_getList tick size start m l :
  getList (snd (NewTimingWheel tick size start m)) l = getList m l.
Proof.
  unfold NewTimingWheel. pose proof (newTaskLists_getList (Z.to_nat size) m l).
  now destruct (newTaskLists _ m).
Qed.

Lemma NewTimingWheel_taskEntries tick size start m :
  taskEntries (snd (NewTimingWheel tick size start m)) = taskEntries m.
Proof.
  unfold NewTimingWheel. pose proof (newTaskLists_taskEntries (Z.to_nat size) m).
  now destruct (newTaskLists _ m).
Qed.

Lemma accept_lists b e E m :
  let m3 := if fst (setExpiration b E (TaskList_add b e m))
            then offer b (snd (setExpiration b E (TaskList_add b e m)))
            else snd (setExpiration b E (TaskList_add b e m)) in
  dom (taskEntries m3) = dom (taskEntries m) /\
  forall l, entries (getList m3 l)
            = if decide (l = b) then entries (getList m b) ++ [e]
              else entries (getList m l).
Proof.
  cbn zeta. unfold setExpiration. cbn [fst snd].
  assert (getList (TaskList_add b e m) b
          = mkTaskList (expiration (getList m b)) (entries (getList m b) ++ [e])) as Hg.
  { unfold TaskList_add. now rewrite getList_setList, getList_insert. }
  rewrite Hg. cbn [expiration entries].
  set (m2 := setLists _ (TaskList_add b e m)).
  assert (dom (taskEntries m2) = dom (taskEntries m)) as Hd.
  { subst m2. unfold TaskList_add, setList, setEntries, setLists. cbn [taskEntries].
    apply dom_alter_L. }
  assert (forall l, entries (getList m2 l)
            = if decide (l = b) then entries (getList m b) ++ [e]
              else entries (getList m l)) as Hl.
  { intros l. subst m2. destruct (decide (l = b)) as [->|Hne].
    - now rewrite getList_insert.
    - rewrite getList_insert_ne by exact Hne.
      unfold TaskList_add. now rewrite getList_setList, getList_insert_ne. }
  destruct (negb _); [|auto]. split; [exact Hd|exact Hl].
Qed.

Lemma add_levels_where (fuel : nat) w e m ok w' m' :
  add_levels fuel w e m = Some (ok, w', m') ->
  dom (taskEntries m') = dom (taskEntries m) /\
  if ok then
    exists b, forall l,
      entries (getList m' l)
      = if decide (l = b) then entries (getList m b) ++ [e]
        else entries (getList m l)
  else forall l, entries (getList m' l) = entries (getList m l).
Proof.
  revert w m ok w' m'. induction fuel as [|fuel IH]; intros w m ok w' m' H;
    cbn [add_levels] in H;
    (destruct (cancelled m e); [now injection H as <- <- <-|]);
    (destruct (_ <? w_currentTime w + w_tickMs w); [now injection H as <- <- <-|]);
    destruct (_ <? w_currentTime w + w_interval w).
  1,3: destruct (w_buckets w !! _) as [b|]; [|discriminate];
       match type of H with
       | context [setExpiration b ?E _] =>
           pose proof (accept_lists b e E m) as HA
       end;
       cbn zeta in HA;
       destruct (setExpiration b _ (TaskList_add b e m)) as [changed m2];
       cbn [fst snd] in HA; injection H as <- <- <-;
       destruct HA; eauto.
  - discriminate.
  - destruct (w_overflowWheel w) as [o|].
    + destruct (add_levels fuel o e m) as [[[ok1 o1] m2]|] eqn:E; [|discriminate].
      injection H as <- <- <-. eauto.
    + pose proof (NewTimingWheel_getList (w_interval w) (w_wheelSize w)
                    (w_currentTime w) m) as HG.
      pose proof (NewTimingWheel_taskEntries (w_interval w) (w_wheelSize w)
                    (w_currentTime w) m) as HT.
      destruct (NewTimingWheel _ _ _ m) as [o m1]. cbn [snd] in *.
      destruct (add_levels fuel o e m1) as [[[ok1 o1] m2]|] eqn:E; [|discriminate].
      injection H as <- <- <-.
      destruct (IH _ _ _ _ _ E) as (Hd & Hl). rewrite HT in Hd. split; [exact Hd|].
      destruct ok1.
      * destruct Hl as [b Hb]. exists b. intros l. rewrite Hb, !HG. reflexivity.
      * intros l. now rewrite Hl, HG.
Qed.

Lemma NoRestart_TaskList_added m m' log b e :
  NoRestart m log ->
  e ∈ dom (taskEntries m) ->
  (forall l, e ∉ entries (getList m l)) -> GoTaskRun e ∉ log ->
  dom (taskEntries m') = dom (taskEntries m) ->
  (forall l, entries (getList m' l)
             = if decide (l = b) then entries (getList m b) ++ [e]
               else entries (getList m l)) ->
  NoRestart m' log.
Proof.
  intros [H1 H2 H3 H4 H5 H6] Hed Hnew Hlog Hd Hl.
  assert (forall l x, x ∈ entries (getList m' l) ->
            (x = e /\ l = b) \/ (x <> e /\ x ∈ entries (getList m l))) as Hin.
  { intros l x. rewrite Hl. destruct (decide (l = b)) as [->|Hne].
    - rewrite elem_of_app, list_elem_of_singleton. intros [Hx | ->]; [|auto].
      right. split; [|exact Hx]. intros ->. now apply (Hnew b).
    - intros Hx. right. split; [|exact Hx]. intros ->. now apply (Hnew l). }
  split.
  - intros l. rewrite Hl. destruct (decide (l = b)) as [->|Hne]; [|apply H1].
    apply NoDup_app. split; [apply H1|]. split; [|apply NoDup_singleton].
    intros x Hx ->%list_elem_of_singleton. now apply (Hnew b).
  - intros l l' x Hx Hx'.
    destruct (Hin _ _ Hx) as [[-> ->]|[Hne Hx0]];
      destruct (Hin _ _ Hx') as [[? ->]|[Hne' Hx0']];
      try congruence. eauto.
  - intros l x Hx. destruct (Hin _ _ Hx) as [[-> ->]|[Hne Hx0]]; eauto.
  - intros l x Hx. rewrite Hd. destruct (Hin _ _ Hx) as [[-> ->]|[Hne Hx0]]; eauto.
  - intros x Hx. rewrite Hd. eauto.
  - exact H6.
Qed.

Lemma NoRestart_go m log e :
  NoRestart m log ->
  e ∈ dom (taskEntries m) ->
  (forall l, e ∉ entries (getList m l)) -> GoTaskRun e ∉ log ->
  NoRestart (go (GoTaskRun e) m) (log ++ [GoTaskRun e]).
Proof.
  intros [H1 H2 H3 H4 H5 H6] Hed Hnew Hlog.
  split; try assumption.
  - intros l x Hx. rewrite elem_of_app, list_elem_of_singleton.
    intros [Hin|[= ->]]; [now apply (H3 l x)|now apply (Hnew l)].
  - intros x. rewrite elem_of_app, list_elem_of_singleton.
    intros [Hin|[= ->]]; [now apply H5|exact Hed].
  - apply NoDup_app. split; [exact H6|]. split; [|apply NoDup_singleton].
    intros x Hx ->%list_elem_of_singleton. contradiction.
Qed.

Lemma drop_all_app {A} (l k : list A) : drop (length l) (l ++ k) = k.
Proof. apply drop_app_length. Qed.

Lemma Add_NoRestart tk now t m log :
  NoRestart m log ->
  NoRestart (memOf (Add tk now t m))
            (log ++ startedBy (t, m) (timerOf (Add tk now t m), memOf (Add tk now t m))).
Proof.
  intros Hinv. unfold startedBy. cbn [fst snd].
  rewrite Add_unfold.
  set (e := fresh (dom (taskEntries m))).
  assert (e ∉ dom (taskEntries m)) as Hfresh by apply is_fresh.
  generalize dependent e. intros e Hfresh.
  set (m1 := setEntries _ m).
  assert (goroutines m1 = goroutines m) as Hg1 by reflexivity.
  assert (dom (taskEntries m1) = {[e]} ∪ dom (taskEntries m)) as Hd1.
  { subst m1. unfold setEntries. cbn [taskEntries]. apply dom_insert_L. }
  assert (NoRestart m1 log) as Hinv1.
  { eapply NoRestart_ext; [| |exact Hinv]; [reflexivity|].
    rewrite Hd1. apply union_subseteq_r. }
  assert (e ∈ dom (taskEntries m1)) as Hed.
  { rewrite Hd1. apply elem_of_union_l, elem_of_singleton. reflexivity. }
  assert (forall l, e ∉ entries (getList m1 l)) as Hnew.
  { intros l Hin. apply Hfresh. destruct Hinv as [_ _ _ H4 _ _]. exact (H4 l e Hin). }
  assert (GoTaskRun e ∉ log) as Hlog.
  { intros Hin. apply Hfresh. destruct Hinv as [_ _ _ _ H5 _]. exact (H5 e Hin). }
  unfold addTimerTaskEntry.
  destruct (add (timingWheel t) e m1) as [[[ok w] m2]|] eqn:HA.
  - pose proof (add_levels_frame _ _ _ _ _ _ _ HA) as [Fg _ _ _ _ _ _].
    destruct (add_levels_where _ _ _ _ _ _ _ HA) as (Hd & Hl).
    destruct ok.
    + cbn [memOf]. rewrite Fg, Hg1, drop_all, app_nil_r.
      destruct Hl as [b Hb]. eapply NoRestart_TaskList_added; eauto.
    + assert (NoRestart m2 log) as Hinv2.
      { eapply NoRestart_ext; [exact Hl| |exact Hinv1]. now rewrite Hd. }
      destruct (negb _); cbn [memOf].
      * cbn [go setGoroutines goroutines]. rewrite Fg, Hg1, drop_all_app.
        apply NoRestart_go; auto.
        -- now rewrite Hd.
        -- intros l. rewrite Hl. apply Hnew.
      * now rewrite Fg, Hg1, drop_all, app_nil_r.
  - cbn [memOf]. now rewrite Hg1, drop_all, app_nil_r.
Qed.

Lemma foldl_setList_dom (es : list EntryRef) (m : Mem) :
  dom (taskEntries (foldl (fun acc x => setList x None acc) m es))
    = dom (taskEntries m).
Proof.
  revert m. induction es as [|x es IH]; intros m; cbn [foldl]; [reflexivity|].
  rewrite IH. unfold setList, setEntries. cbn [taskEntries]. apply dom_alter_L.
Qed.

Lemma flush_flushVisitor_lists v m :
  taskLists (flush v flushVisitor m) = <[v := emptyTaskList]> (taskLists m) /\
  dom (taskEntries (flush v flushVisitor m)) = dom (taskEntries m).
Proof.
  unfold flush. cbn zeta.
  set (es := entries (getList m v)). set (m1 := setLists _ m).
  destruct (foldl_flushVisitor_frame es (foldl (fun acc x => setList x None acc) m1 es))
    as (HL & HE & _).
  destruct (foldl_setList_frame es m1) as (HL1 & _).
  rewrite HL, HE, HL1, foldl_setList_dom. split; reflexivity.
Qed.

Lemma flush_NoRestart v m log :
  NoRestart m log ->
  NoRestart (flush v flushVisitor m)
            (log ++ map GoTaskRun (entries (getList m v))).
Proof.
  intros [H1 H2 H3 H4 H5 H6].
  destruct (flush_flushVisitor_lists v m) as (HL & HD).
  assert (forall l, entries (getList (flush v flushVisitor m) l)
            = if decide (l = v) then [] else entries (getList m l)) as Hl.
  { intros l. unfold getList at 1. rewrite HL.
    destruct (decide (l = v)) as [->|Hne].
    - now rewrite lookup_insert_eq.
    - now rewrite lookup_insert_ne by congruence. }
  assert (forall l x, x ∈ entries (getList (flush v flushVisitor m) l) ->
            l <> v /\ x ∈ entries (getList m l)) as Hin.
  { intros l x. rewrite Hl. destruct (decide (l = v)); [|auto].
    intros []%elem_of_nil. }
  assert (forall x, GoTaskRun x ∈ map GoTaskRun (entries (getList m v)) ->
            x ∈ entries (getList m v)) as Hmap.
  { intros x Hx. apply list_elem_of_In, in_map_iff in Hx.
    destruct Hx as (y & [= ->] & Hy). now apply list_elem_of_In. }
  split.
  - intros l. rewrite Hl. destruct (decide (l = v)); [constructor|apply H1].
  - intros l l' x Hx Hx'. destruct (Hin _ _ Hx), (Hin _ _ Hx'). eauto.
  - intros l x Hx. destruct (Hin _ _ Hx) as [Hne Hx0].
    rewrite elem_of_app. intros [Hlog|Hst]; [now apply (H3 l x)|].
    apply Hne. eapply H2; [exact Hx0|]. now apply Hmap.
  - intros l x Hx. rewrite HD. destruct (Hin _ _ Hx). eauto.
  - intros x. rewrite HD, elem_of_app. intros [Hlog|Hst]; [eauto|].
    eapply H4. apply Hmap, Hst.
  - apply NoDup_app. split; [exact H6|]. split.
    + intros g Hg Hst. apply list_elem_of_In, in_map_iff in Hst.
      destruct Hst as (y & <- & Hy). apply list_elem_of_In in Hy.
      now apply (H3 v y).
    + change (NoDup (GoTaskRun <$> entries (getList m v))).
      apply NoDup_fmap_2; [|apply H1]. intros a b' [= ->]. reflexivity.
Qed.

Lemma Pop_NoRestart ctx m r m' log :
  Pop ctx m = Some (r, m') -> NoRestart m log -> NoRestart m' log.
Proof.
  intros HP. apply Pop_frame in HP. destruct HP as [HL HE _ _ _ _ _].
  apply NoRestart_ext.
  - intros l. unfold getList. now rewrite HL.
  - now rewrite HE.
Qed.

Lemma AdvanceClock_loop_NoRestart (fuel : nat) ctx v t m o log :
  NoRestart m log -> AdvanceClock_loop fuel ctx v t m = Some o ->
  exists new, goroutines (memOf o) = goroutines m ++ new /\
              NoRestart (memOf o) (log ++ new).
Proof.
  revert v t m log. induction fuel as [|fuel IH]; intros v t m log Hinv H; cbn in H;
    destruct (flush_flushVisitor v m) as (_ & Hg & _);
    pose proof (flush_NoRestart v m log Hinv) as Hf;
    destruct (Pop ctx (flush v flushVisitor m)) as [[[[l|d]|] m2]|] eqn:HP;
    try discriminate.
  all: try (pose proof (Pop_NoRestart _ _ _ _ _ HP Hf) as Hf2;
            apply Pop_frame in HP; destruct HP as [_ _ HPg _ _ _ _]).
  all: try (injection H as <-; cbn [memOf];
            eexists; split; [rewrite <- Hg; first [exact HPg|reflexivity]|];
            first [exact Hf2|exact Hf]).
  destruct (IH _ _ _ _ Hf2 H) as (new & Hnew & Hinv').
  exists (map GoTaskRun (entries (getList m v)) ++ new).
  rewrite Hnew, HPg, Hg, !app_assoc. split; [reflexivity|exact Hinv'].
Qed.

Lemma AdvanceClock_NoRestart ctx t m log :
  NoRestart m log ->
  NoRestart (memOf (AdvanceClock ctx t m))
    (log ++ startedBy (t, m)
              (timerOf (AdvanceClock ctx t m), memOf (AdvanceClock ctx t m))).
Proof.
  intros Hinv. unfold startedBy. cbn [fst snd].
  destruct (Pop ctx m) as [[[[v|d]|] m1]|] eqn:HP.
  - pose proof (AdvanceClock_bucket ctx t m v m1 HP) as HL.
    pose proof (Pop_NoRestart _ _ _ _ _ HP Hinv) as Hinv1.
    destruct (AdvanceClock_loop_NoRestart _ _ _ _ _ _ _ Hinv1 HL) as (new & Hnew & Hinv').
    apply Pop_frame in HP. destruct HP as [_ _ HPg _ _ _ _].
    now rewrite Hnew, HPg, drop_all_app.
  - unfold AdvanceClock. rewrite HP. cbn [memOf].
    pose proof (Pop_NoRestart _ _ _ _ _ HP Hinv) as Hinv1.
    apply Pop_frame in HP. destruct HP as [_ _ HPg _ _ _ _].
    now rewrite HPg, drop_all, app_nil_r.
  - unfold AdvanceClock. rewrite HP. cbn [memOf].
    pose proof (Pop_NoRestart _ _ _ _ _ HP Hinv) as Hinv1.
    apply Pop_frame in HP. destruct HP as [_ _ HPg _ _ _ _].
    now rewrite HPg, drop_all, app_nil_r.
  - unfold AdvanceClock. rewrite HP. cbn [memOf].
    now rewrite drop_all, app_nil_r.
Qed.

Lemma step_NoRestart op s log :
  NoRestart (snd s) log ->
  NoRestart (snd (step op s)) (log ++ startedBy s (step op s)).
Proof.
  destruct s as [t m]. intros Hinv. destruct op; unfold step; cbn [fst snd].
  - apply Add_NoRestart, Hinv.
  - unfold startedBy. cbn [snd]. change (goroutines (cancel e m)) with (goroutines m).
    rewrite drop_all, app_nil_r.
    eapply NoRestart_ext; [| |exact Hinv]; [reflexivity|].
    unfold cancel, setEntries. cbn [taskEntries]. now rewrite dom_alter_L.
  - apply AdvanceClock_NoRestart, Hinv.
  - unfold startedBy, Shutdown. cbn [snd]. now rewrite drop_all, app_nil_r.
  - unfold startedBy. cbn [snd].
    assert (drop (length (goroutines m)) (goroutines (runGoroutine i m)) = []) as ->.
    { unfold runGoroutine. destruct (goroutines m !! i) as [[e]|] eqn:E.
      - apply drop_ge. cbn [run setInvoked setGoroutines goroutines].
        apply lookup_lt_Some in E.
        rewrite length_app, length_take, length_drop. lia.
      - apply drop_all. }
    rewrite app_nil_r.
    eapply NoRestart_ext; [| |exact Hinv].
    + intros l. unfold runGoroutine. now destruct (goroutines m !! i) as [[e]|].
    + unfold runGoroutine. now destruct (goroutines m !! i) as [[e]|].
Qed.

Lemma steps_NoRestart ops s log :
  NoRestart (snd s) log -> NoDup (log ++ startsOf ops s).
Proof.
  revert s log. induction ops as [|op ops IH]; intros s log Hinv; cbn [startsOf].
  - rewrite app_nil_r. apply Hinv.
  - rewrite app_assoc. apply IH. now apply step_NoRestart.
Qed.

(** X12: over any history on a new timer no entry is started twice: the
    goroutines started by [Add] and [AdvanceClock] along the history are
    pairwise distinct. *)
Theorem no_entry_is_started_twice tick size now ops :
  NoDup (startsOf ops (NewSystemTimer tick size now)).
Proof.
  apply (steps_NoRestart ops (NewSystemTimer tick size now) []).
  destruct (NewSystemTimer_fresh tick size now) as (Hempty & _).
  split; try (intros l; rewrite (Hempty l)); try constructor;
    try (intros ? ? []%elem_of_nil); try (intros ? []%elem_of_nil).
Qed.

(** ** No entry is lost *)

Lemma Accounted_ext m m' log log' :
  dom (taskEntries m') = dom (taskEntries m) ->
  (forall l e, e ∈ entries (getList m l) ->
     (exists l', e ∈ entries (getList m' l')) \/ GoTaskRun e ∈ log') ->
  (forall g, g ∈ log -> g ∈ log') ->
  Accounted m log -> Accounted m' log'.
Proof.
  intros Hd Hl Hlog H e He. rewrite Hd in He.
  destruct (H e He) as [[l Hin]|Hin]; eauto.
Qed.

Lemma addTimerTaskEntry_Accounted e t m m1 log :
  WheelOk (timingWheel t) -> Accounted m log ->
  dom (taskEntries m1) = {[e]} ∪ dom (taskEntries m) ->
  (forall l, getList m1 l = getList m l) ->
  goroutines m1 = goroutines m ->
  cancelled m1 e = false -> expirationMs (getEntry m1 e) < 2 ^ 63 ->
  Accounted (memOf (addTimerTaskEntry e t m1))
    (log ++ drop (length (goroutines m))
              (goroutines (memOf (addTimerTaskEntry e t m1)))).
Proof.
  intros Hok Hacc Hd1 Hl1 Hg1 Hc1 Hx.
  unfold addTimerTaskEntry.
  destruct (add_returns (timingWheel t) e m1 Hok Hx) as [[[ok w] m2] HA].
  rewrite HA.
  pose proof (add_levels_frame _ _ _ _ _ _ _ HA) as [Fg _ _ _ _ _ Fc].
  destruct (add_levels_where _ _ _ _ _ _ _ HA) as (Hd & Hl).
  assert (cancelled m2 e = false) as Hc by (now rewrite Fc).
  destruct ok.
  - cbn [memOf]. rewrite Fg, Hg1, drop_all, app_nil_r.
    destruct Hl as [b Hb].
    intros y Hy. rewrite Hd, Hd1 in Hy. apply elem_of_union in Hy.
    destruct Hy as [->%elem_of_singleton|Hy].
    + left. exists b. rewrite Hb. rewrite decide_True by reflexivity.
      apply elem_of_app. right. now apply list_elem_of_singleton.
    + destruct (Hacc y Hy) as [[l Hin]|Hin]; [|auto].
      left. exists l. rewrite Hb, !Hl1.
      destruct (decide (l = b)) as [->|]; [|exact Hin].
      apply elem_of_app. now left.
  - rewrite Hc. cbn [negb memOf].
    set (m3 := go (GoTaskRun e) m2).
    assert (taskEntries m3 = taskEntries m2) as HE3 by reflexivity.
    assert (forall l, getList m3 l = getList m2 l) as HL3 by reflexivity.
    assert (goroutines m3 = goroutines m2 ++ [GoTaskRun e]) as -> by reflexivity.
    rewrite Fg, Hg1, drop_all_app.
    intros y Hy. rewrite HE3, Hd, Hd1 in Hy. apply elem_of_union in Hy.
    destruct Hy as [->%elem_of_singleton|Hy].
    + right. apply elem_of_app. right. now apply list_elem_of_singleton.
    + destruct (Hacc y Hy) as [[l Hin]|Hin].
      * left. exists l. now rewrite HL3, Hl, Hl1.
      * right. apply elem_of_app. now left.
Qed.

Lemma Add_Accounted tk now t m log :
  WheelOk (timingWheel t) -> Accounted m log ->
  Accounted (memOf (Add tk now t m))
            (log ++ startedBy (t, m) (timerOf (Add tk now t m), memOf (Add tk now t m))).
Proof.
  intros Hok Hacc. unfold startedBy. cbn [fst snd].
  pose proof (getEntry_NewTaskEntry tk (wrap64 (delayMs tk + Nanosecond now)) m) as HN.
  unfold NewTaskEntry in HN. cbn [fst snd] in HN.
  rewrite Add_unfold.
  apply addTimerTaskEntry_Accounted; auto.
  - unfold setEntries. cbn [taskEntries]. apply dom_insert_L.
  - unfold cancelled. etrans; [apply (f_equal cancelledFlag HN)|reflexivity].
  - eapply Z.le_lt_trans;
      [apply Z.eq_le_incl; exact (f_equal expirationMs HN)|apply wrap64_range].
Qed.

Lemma flush_Accounted v m log :
  Accounted m log ->
  Accounted (flush v flushVisitor m)
            (log ++ map GoTaskRun (entries (getList m v))).
Proof.
  intros Hacc.
  destruct (flush_flushVisitor_lists v m) as (HL & HD).
  intros y Hy. rewrite HD in Hy.
  destruct (Hacc y Hy) as [[l Hin]|Hin].
  - destruct (decide (l = v)) as [->|Hne].
    + right. apply elem_of_app. right.
      apply list_elem_of_In, in_map, list_elem_of_In, Hin.
    + left. exists l. unfold getList at 1. rewrite HL.
      now rewrite lookup_insert_ne by congruence.
  - right. apply elem_of_app. now left.
Qed.

Lemma Pop_Accounted ctx m r m' log :
  Pop ctx m = Some (r, m') -> Accounted m log -> Accounted m' log.
Proof.
  intros HP. apply Pop_frame in HP. destruct HP as [HL HE _ _ _ _ _].
  intros Hacc y Hy. rewrite HE in Hy.
  destruct (Hacc y Hy) as [[l Hin]|Hin]; [|auto].
  left. exists l. unfold getList. now rewrite HL.
Qed.

Lemma AdvanceClock_loop_Accounted (fuel : nat) ctx v t m o log :
  Accounted m log -> AdvanceClock_loop fuel ctx v t m = Some o ->
  exists new, goroutines (memOf o) = goroutines m ++ new /\
              Accounted (memOf o) (log ++ new).
Proof.
  revert v t m log. induction fuel as [|fuel IH]; intros v t m log Hinv H; cbn in H;
    destruct (flush_flushVisitor v m) as (_ & Hg & _);
    pose proof (flush_Accounted v m log Hinv) as Hf;
    destruct (Pop ctx (flush v flushVisitor m)) as [[[[l|d]|] m2]|] eqn:HP;
    try discriminate.
  all: try (pose proof (Pop_Accounted _ _ _ _ _ HP Hf) as Hf2;
            apply Pop_frame in HP; destruct HP as [_ _ HPg _ _ _ _]).
  all: try (injection H as <-; cbn [memOf];
            eexists; split; [rewrite <- Hg; first [exact HPg|reflexivity]|];
            first [exact Hf2|exact Hf]).
  destruct (IH _ _ _ _ Hf2 H) as (new & Hnew & Hinv').
  exists (map GoTaskRun (entries (getList m v)) ++ new).
  rewrite Hnew, HPg, Hg, !app_assoc. split; [reflexivity|exact Hinv'].
Qed.

Lemma AdvanceClock_Accounted ctx t m log :
  Accounted m log ->
  Accounted (memOf (AdvanceClock ctx t m))
    (log ++ startedBy (t, m)
              (timerOf (AdvanceClock ctx t m), memOf (AdvanceClock ctx t m))).
Proof.
  intros Hinv. unfold startedBy. cbn [fst snd].
  destruct (Pop ctx m) as [[[[v|d]|] m1]|] eqn:HP.
  - pose proof (AdvanceClock_bucket ctx t m v m1 HP) as HL.
    pose proof (Pop_Accounted _ _ _ _ _ HP Hinv) as Hinv1.
    destruct (AdvanceClock_loop_Accounted _ _ _ _ _ _ _ Hinv1 HL) as (new & Hnew & Hinv').
    apply Pop_frame in HP. destruct HP as [_ _ HPg _ _ _ _].
    now rewrite Hnew, HPg, drop_all_app.
  - unfold AdvanceClock. rewrite HP. cbn [memOf].
    pose proof (Pop_Accounted _ _ _ _ _ HP Hinv) as Hinv1.
    apply Pop_frame in HP. destruct HP as [_ _ HPg _ _ _ _].
    now rewrite HPg, drop_all, app_nil_r.
  - unfold AdvanceClock. rewrite HP. cbn [memOf].
    pose proof (Pop_Accounted _ _ _ _ _ HP Hinv) as Hinv1.
    apply Pop_frame in HP. destruct HP as [_ _ HPg _ _ _ _].
    now rewrite HPg, drop_all, app_nil_r.
  - unfold AdvanceClock. rewrite HP. cbn [memOf].
    now rewrite drop_all, app_nil_r.
Qed.

Lemma runGoroutine_starts_nothing i m :
  drop (length (goroutines m)) (goroutines (runGoroutine i m)) = [].
Proof.
  unfold runGoroutine. destruct (goroutines m !! i) as [[e]|] eqn:E.
  - apply drop_ge. cbn [run setInvoked setGoroutines goroutines].
    apply lookup_lt_Some in E.
    rewrite length_app, length_take, length_drop. lia.
  - apply drop_all.
Qed.

Lemma step_Accounted op s log :
  WheelOk (timingWheel (fst s)) -> Accounted (snd s) log ->
  Accounted (snd (step op s)) (log ++ startedBy s (step op s)).
Proof.
  destruct s as [t m]. intros Hok Hinv. destruct op; unfold step; cbn [fst snd] in *.
  - now apply Add_Accounted.
  - unfold startedBy. cbn [snd]. change (goroutines (cancel e m)) with (goroutines m).
    rewrite drop_all, app_nil_r.
    eapply Accounted_ext; [| | |exact Hinv]; eauto.
    unfold cancel, setEntries. cbn [taskEntries]. now rewrite dom_alter_L.
  - now apply AdvanceClock_Accounted.
  - unfold startedBy, Shutdown. cbn [snd]. now rewrite drop_all, app_nil_r.
  - unfold startedBy. cbn [snd]. rewrite runGoroutine_starts_nothing, app_nil_r.
    eapply Accounted_ext; [| | |exact Hinv]; eauto.
    + unfold runGoroutine. now destruct (goroutines m !! i) as [[e]|].
    + intros l e Hin. left. exists l.
      unfold runGoroutine. now destruct (goroutines m !! i) as [[e']|].
Qed.

Lemma step_WheelOk op s :
  WheelOk (timingWheel (fst s)) -> WheelOk (timingWheel (fst (step op s))).
Proof. apply (steps_WheelOk [op] s). Qed.

Lemma steps_Accounted ops s log :
  WheelOk (timingWheel (fst s)) -> Accounted (snd s) log ->
  Accounted (snd (steps ops s)) (log ++ startsOf ops s).
Proof.
  revert s log. induction ops as [|op ops IH]; intros s log Hok Hinv; cbn [startsOf].
  - now rewrite app_nil_r.
  - rewrite app_assoc. apply (IH (step op s)).
    + now apply step_WheelOk.
    + now apply step_Accounted.
Qed.

(** ** Pending buckets are queued *)

Lemma elem_of_insertKeyed k x q p :
  p ∈ insertKeyed k x q <-> p = (k, x) \/ p ∈ q.
Proof.
  induction q as [|[k' x'] q IH]; cbn.
  - rewrite list_elem_of_singleton, elem_of_nil. tauto.
  - destruct (k <? k').
    + rewrite elem_of_cons. tauto.
    + rewrite !elem_of_cons, IH. tauto.
Qed.

Lemma accept_Armed b e E m :
  E <> unarmed -> Armed m ->
  Armed (if fst (setExpiration b E (TaskList_add b e m))
         then offer b (snd (setExpiration b E (TaskList_add b e m)))
         else snd (setExpiration b E (TaskList_add b e m))).
Proof.
  intros HE [HQ HU]. unfold setExpiration. cbn [fst snd].
  assert (getList (TaskList_add b e m) b
          = mkTaskList (expiration (getList m b)) (entries (getList m b) ++ [e])) as Hg.
  { unfold TaskList_add. now rewrite getList_setList, getList_insert. }
  rewrite Hg. cbn [expiration entries].
  set (m2 := setLists _ (TaskList_add b e m)).
  assert (delayQueue m2 = delayQueue m) as Hq2 by reflexivity.
  assert (getList m2 b = mkTaskList E (entries (getList m b) ++ [e])) as Hb2.
  { subst m2. now rewrite getList_insert. }
  assert (forall l, l <> b -> getList m2 l = getList m l) as Hl2.
  { intros l Hne. subst m2. rewrite getList_insert_ne by exact Hne.
    unfold TaskList_add. now rewrite getList_setList, getList_insert_ne. }
  destruct (expiration (getList m b) =? E) eqn:Eq; cbn [negb].
  - apply Z.eqb_eq in Eq. split.
    + intros l Hl. rewrite Hq2. destruct (decide (l = b)) as [->|Hne].
      * apply HQ. intros Hnil. apply HE. rewrite <- Eq. now apply HU.
      * rewrite Hl2 in Hl by exact Hne. now apply HQ.
    + intros l Hl. destruct (decide (l = b)) as [->|Hne].
      * rewrite Hb2 in Hl. cbn in Hl. now destruct (entries (getList m b)).
      * rewrite Hl2 in * by exact Hne. now apply HU.
  - assert (forall l, getList (offer b m2) l = getList m2 l) as Ho by reflexivity.
    split.
    + intros l Hl. rewrite Ho in Hl. unfold offer. cbn [setDelayQueue delayQueue].
      destruct (decide (l = b)) as [->|Hne].
      * eexists. apply elem_of_insertKeyed. left. reflexivity.
      * rewrite Hl2 in Hl by exact Hne. destruct (HQ l Hl) as [k Hk].
        exists k. apply elem_of_insertKeyed. right. now rewrite Hq2.
    + intros l. rewrite Ho. intros Hl. destruct (decide (l = b)) as [->|Hne].
      * rewrite Hb2 in Hl. cbn in Hl. now destruct (entries (getList m b)).
      * rewrite Hl2 in * by exact Hne. now apply HU.
Qed.

Lemma Armed_ext m m' :
  (forall l, getList m' l = getList m l) -> delayQueue m' = delayQueue m ->
  Armed m -> Armed m'.
Proof.
  intros Hl Hq [HQ HU]. split; intros l; rewrite Hl, ?Hq; auto.
Qed.

Lemma add_levels_Armed (fuel : nat) w e m ok w' m' :
  WheelOk w -> Armed m ->
  add_levels fuel w e m = Some (ok, w', m') -> Armed m'.
Proof.
  revert w m ok w' m'. induction fuel as [|fuel IH];
    intros w m ok w' m' Hok Harm H;
    destruct w as [tick size iv ct bs ov]; cbn in Hok;
    cbn [add_levels w_tickMs w_wheelSize w_interval w_currentTime w_buckets
         w_overflowWheel] in H;
    (destruct (cancelled m e); [now injection H as <- <- <-|]);
    (destruct (_ <? ct + tick) eqn:Edue; [now injection H as <- <- <-|]);
    apply Z.ltb_ge in Edue;
    destruct Hok as (Ht & Hs & Hi & Hc & Hb & Hov);
    destruct (_ <? ct + iv).
  1,3: destruct (bs !! _) as [b|]; [|discriminate];
       set (x := expirationMs (getEntry m e)) in *;
       assert (1 <= x / tick) by (apply Z.div_le_lower_bound; lia);
       pose proof (accept_Armed b e (x / tick * tick) m
                     ltac:(unfold unarmed; nia) Harm) as HA;
       destruct (setExpiration b (x / tick * tick) (TaskList_add b e m))
         as [changed m2];
       cbn [fst snd] in HA; now injection H as <- <- <-.
  - discriminate.
  - assert (0 < iv) by nia.
    destruct ov as [o|].
    + destruct Hov as (Hto & Hso & Hoko).
      destruct (add_levels fuel o e m) as [[[ok1 o1] m2]|] eqn:E; [|discriminate].
      injection H as <- <- <-. eauto.
    + pose proof (NewTimingWheel_WheelOk iv size ct m ltac:(lia) Hs Hc) as HW.
      pose proof (NewTimingWheel_getList iv size ct m) as HG.
      pose proof (NewTimingWheel_delayQueue iv size ct m) as HQ.
      destruct (NewTimingWheel iv size ct m) as [o m1]. cbn [fst snd] in *.
      destruct (add_levels fuel o e m1) as [[[ok1 o1] m2]|] eqn:E; [|discriminate].
      injection H as <- <- <-. eapply IH; [exact HW| |exact E].
      eapply Armed_ext; eauto.
Qed.

Lemma Add_Armed tk now t m :
  WheelOk (timingWheel t) -> Armed m -> Armed (memOf (Add tk now t m)).
Proof.
  intros Hok Harm. rewrite Add_unfold. unfold addTimerTaskEntry.
  set (m1 := setEntries _ m).
  assert (Armed m1) as Harm1 by (eapply Armed_ext; [| |exact Harm]; reflexivity).
  destruct (add (timingWheel t) _ m1) as [[[[|] w] m2]|] eqn:HA; cbn [memOf].
  - eapply add_levels_Armed; eauto.
  - apply (add_levels_Armed _ _ _ _ _ _ _ Hok Harm1) in HA.
    destruct (negb _); cbn [memOf]; [|exact HA].
    eapply Armed_ext; [| |exact HA]; reflexivity.
  - exact Harm1.
Qed.

Lemma Pop_Armed ctx m r m1 :
  Armed m -> Pop ctx m = Some (r, m1) ->
  match r with
  | Some (DTaskList v) => ArmedBut v m1
  | _ => Armed m1
  end.
Proof.
  intros [HQ HU] HP. apply Pop_frame in HP. destruct HP as [HL _ _ _ _ _ HPq].
  assert (forall l, getList m1 l = getList m l) as Hl
    by (intros l; unfold getList; now rewrite HL).
  destruct r as [[v|d]|].
  - destruct HPq as [k Hk]. split; intros l Hne; rewrite Hl; [|now apply HU].
    intros Hl'. destruct (HQ l Hl') as [k' Hk']. exists k'.
    rewrite Hk in Hk'. apply elem_of_cons in Hk'.
    destruct Hk' as [[= _ ->]|Hin]; [contradiction|exact Hin].
  - destruct HPq as [k Hk]. split; intros l; rewrite Hl; [|now apply HU].
    intros Hl'. destruct (HQ l Hl') as [k' Hk']. exists k'.
    rewrite Hk in Hk'. apply elem_of_cons in Hk'.
    destruct Hk' as [[=]|Hin]. exact Hin.
  - split; intros l; rewrite Hl, ?HPq; auto.
Qed.

Lemma flush_Armed v m :
  ArmedBut v m -> Armed (flush v flushVisitor m).
Proof.
  intros [HQ HU].
  destruct (flush_flushVisitor_lists v m) as (HL & _).
  destruct (flush_flushVisitor v m) as (Hq & _).
  assert (forall l, getList (flush v flushVisitor m) l
            = if decide (l = v) then emptyTaskList else getList m l) as Hl.
  { intros l. unfold getList at 1. rewrite HL.
    destruct (decide (l = v)) as [->|Hne].
    - now rewrite lookup_insert_eq.
    - now rewrite lookup_insert_ne by congruence. }
  split; intros l; rewrite Hl, ?Hq; destruct (decide (l = v)); auto.
Qed.

Lemma AdvanceClock_loop_Armed (fuel : nat) ctx v t m o :
  ArmedBut v m -> AdvanceClock_loop fuel ctx v t m = Some o -> Armed (memOf o).
Proof.
  revert v t m. induction fuel as [|fuel IH]; intros v t m Hab H; cbn in H;
    pose proof (flush_Armed v m Hab) as Hf;
    destruct (Pop ctx (flush v flushVisitor m)) as [[[[l|d]|] m2]|] eqn:HP;
    try discriminate;
    try (pose proof (Pop_Armed _ _ _ _ Hf HP) as Hf2; cbn beta iota in Hf2);
    try (injection H as <-; cbn [memOf]; first [exact Hf2|exact Hf]).
  eapply IH; eauto.
Qed.

Lemma AdvanceClock_Armed ctx t m :
  Armed m -> Armed (memOf (AdvanceClock ctx t m)).
Proof.
  intros Harm. destruct (Pop ctx m) as [[[[v|d]|] m1]|] eqn:HP.
  - pose proof (AdvanceClock_bucket ctx t m v m1 HP) as HL.
    eapply AdvanceClock_loop_Armed; [|exact HL].
    exact (Pop_Armed _ _ _ _ Harm HP).
  - unfold AdvanceClock. rewrite HP. exact (Pop_Armed _ _ _ _ Harm HP).
  - unfold AdvanceClock. rewrite HP. exact (Pop_Armed _ _ _ _ Harm HP).
  - unfold AdvanceClock. now rewrite HP.
Qed.

Lemma steps_Armed ops s :
  WheelOk (timingWheel (fst s)) -> Armed (snd s) -> Armed (snd (steps ops s)).
Proof.
  revert s. induction ops as [|op ops IH]; intros s Hok Harm; [exact Harm|].
  cbn. apply IH; [now apply step_WheelOk|].
  destruct s as [t m]. destruct op; unfold step; cbn [fst snd] in *.
  - now apply Add_Armed.
  - eapply Armed_ext; [| |exact Harm]; reflexivity.
  - now apply AdvanceClock_Armed.
  - exact Harm.
  - eapply Armed_ext; [| |exact Harm].
    + intros l. unfold runGoroutine. now destruct (goroutines m !! i) as [[e]|].
    + apply runGoroutine_delayQueue.
Qed.

(** ** A late clock advance starts everything *)

Lemma Pop_until d k x q m :
  delayQueue m = (k, x) :: q -> k <= d ->
  exists c, Pop (until d) m = Some (Some x, afterPop q c (Some x) m).
Proof.
  intros Hq HE. unfold Pop. rewrite Hq. cbn [until doneAt].
  destruct (k <=? clock m); [eauto|].
  apply Z.leb_le in HE. rewrite HE. eauto.
Qed.

Lemma AdvanceClock_loop_empties (fuel : nat) d v t m o :
  onlyBuckets m -> dueBy d m ->
  AdvanceClock_loop fuel (until d) v t m = Some o -> delayQueue (memOf o) = [].
Proof.
  unfold onlyBuckets, dueBy.
  revert v t m. induction fuel as [|fuel IH]; intros v t m Hb Hd H; cbn in H;
    destruct (flush_flushVisitor v m) as (Hq & _);
    (destruct (delayQueue m) as [|[k x] q] eqn:Eq;
     [rewrite (Pop_empty d (flush v flushVisitor m)) in H by (now rewrite Hq);
      now injection H as <-|]);
    (destruct (Pop_until d k x q (flush v flushVisitor m)) as [c HP];
     [now rewrite Hq|apply (Hd (k, x)), elem_of_cons; now left|]);
    rewrite HP in H; inversion Hb as [|? ? Hx Hb']; subst;
    destruct x as [l|z]; try (now destruct Hx); try discriminate.
  eapply IH; [| |exact H]; cbn [afterPop delayQueue]; [exact Hb'|].
  intros p Hp. apply Hd, elem_of_cons. now right.
Qed.

Lemma AdvanceClock_empties d t m :
  onlyBuckets m -> dueBy d m ->
  delayQueue (memOf (AdvanceClock (until d) t m)) = [].
Proof.
  intros Hb Hd. destruct (delayQueue m) as [|[k x] q] eqn:Eq.
  - unfold AdvanceClock. now rewrite (Pop_empty d m Eq).
  - destruct (Pop_until d k x q m Eq) as [c HP].
    { apply (Hd (k, x)). rewrite Eq. apply elem_of_cons. now left. }
    unfold onlyBuckets in Hb. rewrite Eq in Hb. inversion Hb as [|? ? Hx Hb']; subst.
    destruct x as [l|z]; [|now destruct Hx].
    pose proof (AdvanceClock_bucket _ t _ _ _ HP) as HL.
    eapply AdvanceClock_loop_empties; [| |exact HL]; cbn [afterPop delayQueue].
    + exact Hb'.
    + intros p Hp. apply Hd. rewrite Eq. apply elem_of_cons. now right.
Qed.

Lemma AdvanceClock_loop_dom (fuel : nat) ctx v t m o :
  AdvanceClock_loop fuel ctx v t m = Some o ->
  dom (taskEntries (memOf o)) = dom (taskEntries m).
Proof.
  revert v t m. induction fuel as [|fuel IH]; intros v t m H; cbn in H;
    destruct (flush_flushVisitor_lists v m) as (_ & HD);
    destruct (Pop ctx (flush v flushVisitor m)) as [[[[l|d]|] m2]|] eqn:HP;
    try discriminate;
    try (apply Pop_frame in HP; destruct HP as [_ HE _ _ _ _ _]);
    try (injection H as <-; cbn [memOf]; congruence).
  rewrite (IH _ _ _ H). congruence.
Qed.

Lemma AdvanceClock_dom ctx t m :
  dom (taskEntries (memOf (AdvanceClock ctx t m))) = dom (taskEntries m).
Proof.
  destruct (Pop ctx m) as [[[[v|d]|] m1]|] eqn:HP.
  - pose proof (AdvanceClock_bucket ctx t m v m1 HP) as HL.
    apply AdvanceClock_loop_dom in HL.
    apply Pop_frame in HP. destruct HP as [_ HE _ _ _ _ _]. congruence.
  - unfold AdvanceClock. rewrite HP. cbn.
    apply Pop_frame in HP. destruct HP as [_ HE _ _ _ _ _]. congruence.
  - unfold AdvanceClock. rewrite HP. cbn.
    apply Pop_frame in HP. destruct HP as [_ HE _ _ _ _ _]. congruence.
  - unfold AdvanceClock. now rewrite HP.
Qed.

Lemma NewSystemTimer_Armed tick size now :
  Armed (snd (NewSystemTimer tick size now)).
Proof.
  destruct (NewSystemTimer_fresh tick size now) as (Hempty & _).
  split; intros l; rewrite (Hempty l); [now intros []|reflexivity].
Qed.

Lemma NewSystemTimer_Accounted tick size now :
  Accounted (snd (NewSystemTimer tick size now)) [].
Proof.
  intros y Hy. exfalso. unfold NewSystemTimer in Hy.
  pose proof (NewTimingWheel_taskEntries tick size (Nanosecond now) emptyMem) as HT.
  destruct (NewTimingWheel _ _ _ _) as [w m]. cbn [snd] in *.
  rewrite HT in Hy. cbn in Hy. now apply not_elem_of_empty in Hy.
Qed.

(** X14: on a timer made with a positive tick and at least two slots, after
    any history, an [AdvanceClock] whose context fires no earlier than every
    element of the delay queue is due leaves no task pending: every entry
    submitted so far has been started by the end of that call, cancelled or
    not. *)
Theorem late_AdvanceClock_starts_every_pending_task tick size now ops d e :
  0 < tick -> 2 <= size ->
  dueBy d (snd (steps ops (NewSystemTimer tick size now))) ->
  e ∈ dom (taskEntries (snd (steps ops (NewSystemTimer tick size now)))) ->
  GoTaskRun e
    ∈ startsOf (ops ++ [OpAdvanceClock (until d)]) (NewSystemTimer tick size now).
Proof.
  intros Ht Hs Hdue He.
  set (s0 := NewSystemTimer tick size now) in *.
  set (ops' := ops ++ [OpAdvanceClock (until d)]).
  assert (steps ops' s0 = step (OpAdvanceClock (until d)) (steps ops s0)) as Hsteps.
  { unfold ops', steps. now rewrite foldl_app. }
  pose proof (NewSystemTimer_WheelOk tick size now Ht Hs) as Hok.
  pose proof (steps_Accounted ops' s0 [] Hok (NewSystemTimer_Accounted _ _ _)) as Hacc.
  pose proof (steps_Armed ops' s0 Hok (NewSystemTimer_Armed _ _ _)) as Harm.
  assert (onlyBuckets (snd (steps ops s0))) as Hb.
  { apply steps_onlyBuckets. unfold onlyBuckets, s0.
    rewrite NewSystemTimer_delayQueue. constructor. }
  rewrite Hsteps in Hacc, Harm. unfold step in Hacc, Harm. cbn [snd] in Hacc, Harm.
  destruct (Hacc e) as [[l Hin]|Hin]; [now rewrite AdvanceClock_dom| |exact Hin].
  exfalso. destruct Harm as [HQ _].
  destruct (HQ l) as [k Hk]; [intros Hnil; rewrite Hnil in Hin; now apply elem_of_nil in Hin|].
  rewrite (AdvanceClock_empties d _ _ Hb Hdue) in Hk. now apply elem_of_nil in Hk.
Qed.

(** An instance: a cancelled entry due at 5 ms and an entry due at 25 ms in
    the overflow bucket armed for 20 ms; the context fires at 20 ms. *)
Lemma late_AdvanceClock_starts_every_pending_task_witness :
  GoTaskRun 1%nat
    ∈ startsOf ([OpAdd (mkTask (5 * ms) 7) 0; OpAdd (mkTask (25 * ms) 8) 0;
                 OpCancel 0%nat] ++ [OpAdvanceClock (until (20 * ms))])
        (NewSystemTimer ms 20 0).
Proof.
  apply (late_AdvanceClock_starts_every_pending_task ms 20 0
           [OpAdd (mkTask (5 * ms) 7) 0; OpAdd (mkTask (25 * ms) 8) 0; OpCancel 0%nat]
           (20 * ms) 1%nat); [unfold ms; lia|lia| |].
  - intros p Hp.
    assert (delayQueue
              (snd (steps [OpAdd (mkTask (5 * ms) 7) 0; OpAdd (mkTask (25 * ms) 8) 0;
                           OpCancel 0%nat] (NewSystemTimer ms 20 0)))
            = [(5 * ms, DTaskList 5%nat); (20 * ms, DTaskList 21%nat)]) as Hq
      by (vm_compute; reflexivity).
    rewrite Hq in Hp.
    apply elem_of_cons in Hp. destruct Hp as [->|Hp]; [vm_compute; discriminate|].
    apply list_elem_of_singleton in Hp. subst p. vm_compute. discriminate.
  - apply elem_of_dom. eexists. vm_compute. reflexivity.
Defined.

(** X13: on a timer made with a positive tick and at least two slots, no
    submitted task is dropped: after any history every entry is either in a
    bucket that has an element in the delay queue, or was started. *)
Theorem no_submitted_task_is_dropped tick size now ops e :
  0 < tick -> 2 <= size ->
  e ∈ dom (taskEntries (snd (steps ops (NewSystemTimer tick size now)))) ->
  (exists l k,
     e ∈ entries (getList (snd (steps ops (NewSystemTimer tick size now))) l) /\
     (k, DTaskList l) ∈ delayQueue (snd (steps ops (NewSystemTimer tick size now))))
  \/ GoTaskRun e ∈ startsOf ops (NewSystemTimer tick size now).
Proof.
  intros Ht Hs He.
  pose proof (NewSystemTimer_WheelOk tick size now Ht Hs) as Hok.
  pose proof (steps_Accounted ops _ [] Hok (NewSystemTimer_Accounted tick size now)) as Hacc.
  pose proof (steps_Armed ops _ Hok (NewSystemTimer_Armed tick size now)) as [HQ _].
  destruct (Hacc e He) as [[l Hin]|Hin]; [left|now right].
  destruct (HQ l) as [k Hk]; [|eauto].
  intros Hnil. rewrite Hnil in Hin. now apply elem_of_nil in Hin.
Qed.

(** An instance: a cancelled entry stays in its queued bucket. *)
Lemma no_submitted_task_is_dropped_witness :
  (exists l k,
     0%nat ∈ entries (getList (snd (steps [OpAdd (mkTask (5 * ms) 7) 0; OpCancel 0%nat]
                                      (NewSystemTimer ms 20 0))) l) /\
     (k, DTaskList l)
       ∈ delayQueue (snd (steps [OpAdd (mkTask (5 * ms) 7) 0; OpCancel 0%nat]
                            (NewSystemTimer ms 20 0))))
  \/ GoTaskRun 0%nat
       ∈ startsOf [OpAdd (mkTask (5 * ms) 7) 0; OpCancel 0%nat] (NewSystemTimer ms 20 0).
Proof.
  apply (no_submitted_task_is_dropped ms 20 0
           [OpAdd (mkTask (5 * ms) 7) 0; OpCancel 0%nat] 0%nat);
    [unfold ms; lia|lia|].
  apply elem_of_dom. eexists. vm_compute. reflexivity.
Defined.
